(** * pyobo: the OBO escaping utilities and the term data model

    A shallow embedding of [pyobo/struct/utils.py] (the two escaping
    functions and their substitution tables), of the calls that the
    extractors [pyobo/sources/silva.py] and [pyobo/sources/msigdb.py] make
    into the term model, and of the [Reference] / [TypeDef] / [Term]
    operations behind those calls. The classes themselves live in
    [pyobo/struct/reference.py] and [pyobo/struct/struct.py], which are not
    among the sources at hand: their operations follow the specification
    and are marked as such. *)

From stdpp Require Import base option list gmap strings.
From Stdlib Require Import NArith Lia.

Local Open Scope N_scope.
Local Open Scope list_scope.

(** ** The Python values the code works on *)

Module Py.

(** A Python [str] is a sequence of Unicode code points; a character is a
    [str] of length one. *)
Abbreviation character := N (only parsing).
Abbreviation str := (list N) (only parsing).

(** A literal, written with the 8-bit characters of a Rocq string. *)
Definition lit (s : string) : str :=
  Ascii.N_of_ascii <$> String.list_ascii_of_string s.

Definition dquote : character := 34.
Definition newline : character := 10.
Definition backslash : character := 92.
Definition space : character := 32.

(** [len(s)] *)
Definition len (s : str) : nat := length s.

(** [sep.join(parts)] *)
Fixpoint join (sep : str) (parts : list str) : str :=
  match parts with
  | [] => []
  | [p] => p
  | p :: ps => p ++ sep ++ join sep ps
  end.

(** [s.startswith(p)] *)
Fixpoint startswith (s p : str) {struct p} : bool :=
  match p, s with
  | [], _ => true
  | _ :: _, [] => false
  | c :: p', d :: s' => (c =? d) && startswith s' p'
  end.

(** The scan of [str.replace] for a non-empty [old]: occurrences are
    found left to right and do not overlap; [skip] counts the characters
    of a matched occurrence that are still to be passed over. *)
Fixpoint replace_from (old new : str) (skip : nat) (s : str) : str :=
  match s with
  | [] => []
  | c :: s' =>
      match skip with
      | S k => replace_from old new k s'
      | O =>
          if startswith s old
          then new ++ replace_from old new (pred (length old)) s'
          else c :: replace_from old new 0 s'
      end
  end.

(** [s.replace(old, new)]; an empty [old] matches before every character
    and at the end. *)
Definition replace (s old new : str) : str :=
  match old with
  | [] => new ++ flat_map (λ c, c :: new) s
  | _ :: _ => replace_from old new 0 s
  end.

(** [d.get(k, default)] on a dict with character keys *)
Definition get {V} (d : gmap N V) (k : N) (dflt : V) : V :=
  default dflt (d !! k).

(** [{**d, **e}]: the entries of [e] override those of [d]. *)
Definition unpack {V} (d e : gmap N V) : gmap N V := e ∪ d.

End Py.

Import Py.

(** ** pyobo/struct/utils.py *)

(** The characters iterated by the comprehension that builds
    [OBO_ESCAPE_SLIM]: colon, comma, double quote, backslash, the two
    parentheses, the two square brackets, the two curly braces. The double
    quote is given by its code point. *)
Definition OBO_ESCAPE_SLIM_chars : str :=
  lit ":," ++ [dquote] ++ lit "\()[]{}".

(** [OBO_ESCAPE_SLIM = {c: f"\\{c}" for c in ...}] *)
Definition OBO_ESCAPE_SLIM : gmap N str :=
  foldl (λ d c, <[c := lit "\" ++ [c]]> d) ∅ OBO_ESCAPE_SLIM_chars.

(** [OBO_ESCAPE = {" ": "\\W", **OBO_ESCAPE_SLIM}] *)
Definition OBO_ESCAPE : gmap N str :=
  unpack {[space := lit "\W"]} OBO_ESCAPE_SLIM.

Definition obo_escape (string : str) : str :=
  join [] ((λ character, get OBO_ESCAPE character [character]) <$> string).

Definition obo_escape_slim (string : str) : str :=
  let rv := join [] ((λ character, get OBO_ESCAPE_SLIM character [character]) <$> string) in
  let rv := replace rv [newline] (lit "\n") in
  rv.

(** ** The substitution the specification describes, character by character *)

Definition colon : character := 58.
Definition comma : character := 44.
Definition lparen : character := 40.
Definition rparen : character := 41.
Definition lbracket : character := 91.
Definition rbracket : character := 93.
Definition lbrace : character := 123.
Definition rbrace : character := 125.
Definition letter_W : character := 87.
Definition letter_n : character := 110.

(** The characters that the specification lists as escaped with a
    backslash prefix. *)
Definition escaped_characters : list character :=
  [colon; comma; dquote; backslash; lparen; rparen;
   lbracket; rbracket; lbrace; rbrace].

(** Full escape of one character, in the specification's words: a listed
    character gets a backslash prefix, the space becomes backslash-W, any
    other character stays. *)
Definition full_substitution (c : character) : str :=
  if decide (c ∈ escaped_characters) then [backslash; c]
  else if decide (c = space) then [backslash; letter_W]
  else [c].

(** The table pass of the slim escape, in the specification's words: the
    same table without the entry of the space. *)
Definition slim_table_substitution (c : character) : str :=
  if decide (c ∈ escaped_characters) then [backslash; c] else [c].

(** Slim escape of one character: the table pass followed by the newline
    replacement. *)
Definition slim_substitution (c : character) : str :=
  if decide (c ∈ escaped_characters) then [backslash; c]
  else if decide (c = newline) then [backslash; letter_n]
  else [c].

(** The characters on which at least one of the two functions acts. *)
Definition reserved (c : character) : Prop :=
  c ∈ escaped_characters ∨ c = space ∨ c = newline.

Global Instance reserved_dec c : Decision (reserved c).
Proof. unfold reserved. apply _. Defined.

(** Decoders for the two escaped forms. *)
Fixpoint obo_unescape (s : str) : str :=
  match s with
  | [] => []
  | c :: s' =>
      if decide (c = backslash) then
        match s' with
        | [] => [c]
        | d :: s'' =>
            (if decide (d = letter_W) then space else d) :: obo_unescape s''
        end
      else c :: obo_unescape s'
  end.

Fixpoint obo_unescape_slim (s : str) : str :=
  match s with
  | [] => []
  | c :: s' =>
      if decide (c = backslash) then
        match s' with
        | [] => [c]
        | d :: s'' =>
            (if decide (d = letter_n) then newline else d) :: obo_unescape_slim s''
        end
      else c :: obo_unescape_slim s'
  end.

(** The entries of [OBO_ESCAPE] in the order of their insertion, which is
    the order in which a loop over the dict visits them. *)
Definition OBO_ESCAPE_items : list (character * str) :=
  (space, lit "\W") :: ((λ c, (c, lit "\" ++ [c])) <$> OBO_ESCAPE_SLIM_chars).

(** Modelled from the spec: the implementation that the specification
    rules out, a loop over the entries of the table in which each step
    replaces all occurrences of the key in the whole string built so
    far. *)
Definition naive_escape (string : str) : str :=
  foldl (λ rv item, replace rv [item.1] item.2) string OBO_ESCAPE_items.

(** The number of newlines of a string, that is [s.count(chr(10))]. *)
Definition count_newlines (s : str) : nat :=
  length (filter (λ c, c = newline) s).

(** ** pyobo.struct: results and exceptions *)

Inductive exception := InvalidReference | InvalidTypeDef.

(** The outcome of a call that may raise. *)
Inductive result (A : Type) :=
| Ok (a : A)
| Raise (e : exception).
Arguments Ok {A} a.
Arguments Raise {A} e.

(** Sequencing: an exception ends the computation. *)
Global Instance result_bind : MBind result := λ A B k r,
  match r with
  | Ok a => k a
  | Raise e => Raise e
  end.

(** ** pyobo.struct.Reference *)

Module Reference.

(** Modelled from the spec: the attributes of a Reference
    (pyobo/struct/reference.py is not among the sources). *)
Record t := mk {
  prefix : str;
  identifier : str;
  name : option str;
}.

(** Modelled from the spec: the constructor [Reference(prefix, identifier,
    name=None)] of pyobo/struct/reference.py, which is not among the
    sources; it rejects an empty prefix or identifier with
    InvalidReference. *)
Definition new (prefix identifier : str) (name : option str) : result t :=
  if decide (prefix = []) then Raise InvalidReference
  else if decide (identifier = []) then Raise InvalidReference
  else Ok (mk prefix identifier name).

(** Modelled from the spec: [Reference.__eq__], not among the sources;
    two References are equal when prefix and identifier match. *)
Definition eqb (r1 r2 : t) : bool :=
  bool_decide (prefix r1 = prefix r2 ∧ identifier r1 = identifier r2).

Section hashing.

(** The hash of a pair of strings, Python's built-in [hash] on the tuple
    (prefix, identifier); its values are fixed per interpreter run only. *)
Variable hash_tuple : str * str → Z.

(** Modelled from the spec: [Reference.__hash__], not among the sources;
    the hash is based on (prefix, identifier) only. *)
Definition hash (r : t) : Z := hash_tuple (prefix r, identifier r).

End hashing.

(** [ref in refs], decided with [==]. *)
Definition mem (ref : t) (refs : list t) : bool := existsb (eqb ref) refs.

End Reference.

(** ** pyobo.struct.TypeDef *)

Module TypeDef.

(** Modelled from the spec: the attributes of a TypeDef
    (pyobo/struct/struct.py is not among the sources). *)
Record t := mk {
  reference : Reference.t;
  definition : option str;
  is_metadata_tag : bool;
}.

(** Modelled from the spec: [TypeDef(reference, definition=None,
    is_metadata_tag=False)] of pyobo/struct/struct.py, which is not among
    the sources. *)
Definition new (reference : Reference.t) (definition : option str)
    (is_metadata_tag : option bool) : t :=
  mk reference definition (default false is_metadata_tag).

(** Modelled from the spec: [TypeDef.__eq__], not among the sources;
    equality is delegated to the underlying Reference. *)
Definition eqb (t1 t2 : t) : bool :=
  Reference.eqb (reference t1) (reference t2).

Section default.

(** [default_reference(prefix, identifier, name=None)] of
    pyobo/struct/reference.py, which is not among the sources: the
    Reference it builds is left open. *)
Variable default_reference : str → str → option str → Reference.t.

(** Modelled from the spec: [TypeDef.default(prefix, identifier,
    name=None)], not among the sources; builds the underlying Reference
    with [default_reference] and leaves the other attributes at their
    defaults. *)
Definition default (prefix identifier : str) (name : option str) : t :=
  new (default_reference prefix identifier name) None None.

End default.

End TypeDef.

(** ** pyobo.struct.Synonym *)

Module Synonym.

(** Modelled from the spec: the attributes of a Synonym
    (pyobo/struct/struct.py is not among the sources); the type is a
    reference to a SynonymTypeDef. *)
Record t := mk {
  name : str;
  type : option Reference.t;
}.

End Synonym.

(** ** pyobo.struct.Term *)

Module Term.

(** An object annotation is an edge (typedef, target). *)
Abbreviation edge := (TypeDef.t * Reference.t)%type (only parsing).

(** Modelled from the spec: the attributes of a Term
    (pyobo/struct/struct.py is not among the sources). *)
Record t := mk {
  reference : Reference.t;
  definition : option str;
  is_obsolete : bool;
  parents : list Reference.t;
  alt_ids : list Reference.t;
  xrefs : list (Reference.t * option Reference.t);
  synonyms : list Synonym.t;
  provenance : list Reference.t;
  (* a set of edges, kept free of duplicates *)
  annotations_object : list edge;
  (* typedef -> sequence of literal values, in insertion order *)
  annotations_literal : list (TypeDef.t * list str);
  species : option Reference.t;
}.

(** Modelled from the spec: the constructor [Term(reference=...,
    definition=None, provenance=[], is_obsolete=False)] of
    pyobo/struct/struct.py, which is not among the sources; a term starts
    without parents and without annotations. *)
Definition new (reference : Reference.t) (definition : option str)
    (provenance : list Reference.t) (is_obsolete : bool) : t :=
  mk reference definition is_obsolete [] [] [] [] provenance [] [] None.

(** Assignments to one attribute of [self]. *)
Definition set_parents (self : t) (refs : list Reference.t) : t :=
  mk (reference self) (definition self) (is_obsolete self) refs
    (alt_ids self) (xrefs self) (synonyms self) (provenance self)
    (annotations_object self) (annotations_literal self) (species self).

Definition set_annotations_object (self : t) (es : list edge) : t :=
  mk (reference self) (definition self) (is_obsolete self) (parents self)
    (alt_ids self) (xrefs self) (synonyms self) (provenance self)
    es (annotations_literal self) (species self).

Definition set_annotations_literal (self : t)
    (d : list (TypeDef.t * list str)) : t :=
  mk (reference self) (definition self) (is_obsolete self) (parents self)
    (alt_ids self) (xrefs self) (synonyms self) (provenance self)
    (annotations_object self) d (species self).

Definition edge_eqb (e1 e2 : edge) : bool :=
  TypeDef.eqb e1.1 e2.1 && Reference.eqb e1.2 e2.2.

(** Modelled from the spec: [Term.append_parent(ref)], not among the
    sources; adds ref to parents if not already present, checked by
    Reference equality. *)
Definition append_parent (self : t) (ref : Reference.t) : t :=
  if Reference.mem ref (parents self) then self
  else set_parents self (parents self ++ [ref]).

(** Modelled from the spec: [Term.annotate_object(typedef, ref)], not
    among the sources; fails with InvalidTypeDef if
    [typedef.is_metadata_tag] is true, otherwise records the edge
    (typedef, ref) in the object-annotation set, at most once. *)
Definition annotate_object (self : t) (typedef : TypeDef.t)
    (ref : Reference.t) : result t :=
  if TypeDef.is_metadata_tag typedef then Raise InvalidTypeDef
  else if existsb (edge_eqb (typedef, ref)) (annotations_object self)
  then Ok self
  else Ok (set_annotations_object self
             (annotations_object self ++ [(typedef, ref)])).

(** [d[typedef].append(value)] on the literal annotations, the sequence of
    a typedef seen for the first time starting empty. *)
Fixpoint append_literal (d : list (TypeDef.t * list str))
    (typedef : TypeDef.t) (value : str) : list (TypeDef.t * list str) :=
  match d with
  | [] => [(typedef, [value])]
  | (k, vs) :: d' =>
      if TypeDef.eqb k typedef then (k, vs ++ [value]) :: d'
      else (k, vs) :: append_literal d' typedef value
  end.

(** The literal values recorded under a typedef, in insertion order. *)
Fixpoint literals (d : list (TypeDef.t * list str)) (typedef : TypeDef.t)
    : list str :=
  match d with
  | [] => []
  | (k, vs) :: d' => if TypeDef.eqb k typedef then vs else literals d' typedef
  end.

(** Modelled from the spec: [Term.annotate_literal(typedef, value)], not
    among the sources; fails with InvalidTypeDef if
    [typedef.is_metadata_tag] is false, otherwise appends value to the
    sequence keyed by typedef, duplicates included. *)
Definition annotate_literal (self : t) (typedef : TypeDef.t) (value : str)
    : result t :=
  if TypeDef.is_metadata_tag typedef
  then Ok (set_annotations_literal self
             (append_literal (annotations_literal self) typedef value))
  else Raise InvalidTypeDef.

(** The edges of a term equal to a given one. *)
Definition edges (self : t) (typedef : TypeDef.t) (ref : Reference.t)
    : list edge :=
  List.filter (edge_eqb (typedef, ref)) (annotations_object self).

End Term.

(** ** The call sites in the extractors *)

Section extractors.

(** [default_reference] of pyobo/struct/reference.py, not among the
    sources. *)
Variable default_reference : str → str → option str → Reference.t.

(** pyobo/sources/silva.py *)
Definition silva_PREFIX : str := lit "silva.taxon".

Definition HAS_TAXONOMIC_CLASSIFICATION : TypeDef.t :=
  TypeDef.new
    (default_reference silva_PREFIX (lit "has_taxonomic_classification")
       (Some (lit "has taxonomic classification")))
    (Some (lit "Indicates that the genome sequence represented by an ENA accession is classified under this taxon by SILVA."))
    (Some true).

(** The term that [iter_terms_silva] builds for a row of the taxmap file
    whose species_taxon_id is a known taxon. *)
Definition silva_taxmap_term (accession organism species_taxon_id : str)
    : result Term.t :=
  reference ← Reference.new (lit "ena.embl") accession (Some organism);
  let new_term := Term.new reference None [] false in
  target ← Reference.new silva_PREFIX species_taxon_id None;
  Term.annotate_object new_term HAS_TAXONOMIC_CLASSIFICATION target.

(** pyobo/sources/msigdb.py *)
Definition msigdb_PREFIX : str := lit "msigdb".

Definition CATEGORY_CODE : TypeDef.t :=
  TypeDef.default default_reference msigdb_PREFIX (lit "category_code") (Some (lit "category code")).
Definition SUB_CATEGORY_CODE : TypeDef.t :=
  TypeDef.default default_reference msigdb_PREFIX (lit "sub_category_code")
    (Some (lit "sub-category code")).
Definition CONTRIBUTOR : TypeDef.t :=
  TypeDef.default default_reference msigdb_PREFIX (lit "contributor") (Some (lit "contributor")).
Definition EXACT_SOURCE : TypeDef.t :=
  TypeDef.default default_reference msigdb_PREFIX (lit "exact_source") (Some (lit "exact source")).
Definition EXTERNAL_DETAILS_URL : TypeDef.t :=
  TypeDef.default default_reference msigdb_PREFIX (lit "external_details_url")
    (Some (lit "external details URL")).

(** The typedefs of [PROPERTIES], in order. *)
Definition PROPERTIES : list TypeDef.t :=
  [CATEGORY_CODE; SUB_CATEGORY_CODE; CONTRIBUTOR; EXACT_SOURCE;
   EXTERNAL_DETAILS_URL].

(** The loop of [iter_terms] over [PROPERTIES]: a value that is not empty
    after stripping is attached with [annotate_literal]. *)
Fixpoint annotate_properties (term : Term.t)
    (properties : list (TypeDef.t * str)) : result Term.t :=
  match properties with
  | [] => Ok term
  | (typedef, value) :: rest =>
      if decide (value = []) then annotate_properties term rest
      else term' ← Term.annotate_literal term typedef value;
           annotate_properties term' rest
  end.

End extractors.

(** ** More of the Python runtime: exceptions, strings, slices, dicts *)

Module Python.

(** What the modelled code can raise: the built-in exceptions KeyError
    and ValueError, and the exceptions of the term model. *)
Inductive builtin_exception :=
| KeyError (key : str)
| ValueError
| Raised (e : exception).

Inductive outcome (A : Type) :=
| Return (a : A)
| Throw (e : builtin_exception).
Arguments Return {A} a.
Arguments Throw {A} e.

Global Instance outcome_bind : MBind outcome := λ A B k r,
  match r with
  | Return a => k a
  | Throw e => Throw e
  end.

Global Instance outcome_ret : MRet outcome := λ A a, Return a.

(** A call into the term model, inside code that can also raise the
    built-in exceptions. *)
Definition lift {A} (r : result A) : outcome A :=
  match r with
  | Ok a => Return a
  | Raise e => Throw (Raised e)
  end.

(** [c.isspace()] for one character: the code points that CPython treats
    as whitespace (U+0009..U+000D, U+001C..U+0020, U+0085, U+00A0, U+1680,
    U+2000..U+200A, U+2028, U+2029, U+202F, U+205F, U+3000). *)
Definition isspace (c : character) : bool :=
  ((9 <=? c) && (c <=? 13)) || ((28 <=? c) && (c <=? 32))
  || (c =? 133) || (c =? 160) || (c =? 5760)
  || ((8192 <=? c) && (c <=? 8202))
  || (c =? 8232) || (c =? 8233) || (c =? 8239) || (c =? 8287)
  || (c =? 12288).

(** [s.lstrip()], [s.rstrip()], [s.strip()] *)
Fixpoint lstrip (s : str) : str :=
  match s with
  | [] => []
  | c :: s' => if isspace c then lstrip s' else s
  end.

Definition rstrip (s : str) : str := reverse (lstrip (reverse s)).

Definition strip (s : str) : str := rstrip (lstrip s).

(** A string without leading and trailing whitespace. *)
Definition trimmed (s : str) : Prop :=
  (∀ c s', s = c :: s' → isspace c = false)
  ∧ (∀ c s', s = s' ++ [c] → isspace c = false).

(** The scan of [str.split] for a non-empty [sep]: [cur] is the piece
    under construction, [skip] counts the characters of a matched
    separator that are still to be passed over. *)
Fixpoint split_from (sep : str) (skip : nat) (cur : str) (s : str) : list str :=
  match s with
  | [] => [cur]
  | c :: s' =>
      match skip with
      | S k => split_from sep k cur s'
      | O =>
          if startswith s sep
          then cur :: split_from sep (pred (length sep)) [] s'
          else split_from sep 0 (cur ++ [c]) s'
      end
  end.

(** [s.split(sep)]; an empty separator raises ValueError. *)
Definition split (s sep : str) : outcome (list str) :=
  match sep with
  | [] => Throw ValueError
  | _ :: _ => Return (split_from sep 0 [] s)
  end.

(** The position that a slice bound [i] denotes in a sequence of length
    [n]: a negative bound counts from the end, and the result is clamped
    to the sequence. *)
Definition slice_bound (n : nat) (i : Z) : nat :=
  Z.to_nat (Z.max 0 (Z.min (Z.of_nat n) (if (i <? 0)%Z then (i + Z.of_nat n)%Z else i))).

(** [l[start:stop]], a missing bound being [None]. *)
Definition slice {A} (l : list A) (start stop : option Z) : list A :=
  let a := from_option (slice_bound (length l)) 0%nat start in
  let b := from_option (slice_bound (length l)) (length l) stop in
  take (b - a) (drop a l).

(** [d[key]] on a dict with string keys *)
Definition getitem {V} (d : gmap (list N) V) (key : str) : outcome V :=
  match d !! key with
  | Some v => Return v
  | None => Throw (KeyError key)
  end.

(** A dict whose order of insertion matters, as a list of items: the
    assignment [d[k] = v] replaces the value of a key already present, in
    place, and appends a new key at the end. *)
Fixpoint setitem {V} (d : list (list N * V)) (k : str) (v : V) : list (list N * V) :=
  match d with
  | [] => [(k, v)]
  | (k', v') :: d' =>
      if decide (k' = k) then (k, v) :: d' else (k', v') :: setitem d' k v
  end.

(** [d.get(k)] on such a dict *)
Fixpoint lookup_item {V} (d : list (list N * V)) (k : str) : option V :=
  match d with
  | [] => None
  | (k', v') :: d' => if decide (k' = k) then Some v' else lookup_item d' k
  end.

End Python.

Import Python.

(** ** pyobo/sources/msigdb.py: the parts that do not touch the term *)

Definition msigdb_SPECIES : gmap (list N) str :=
  list_to_map
    [(lit "Homo sapiens", lit "9606");
     (lit "Mus musculus", lit "10090");
     (lit "Rattus norvegicus", lit "10116");
     (lit "Macaca mulatta", lit "9544");
     (lit "Danio rerio", lit "7955")].

(** Line 94 of [iter_terms]: [_SPECIES[attrib["ORGANISM"]]]. *)
Definition msigdb_tax_id (attrib : gmap (list N) str) : outcome str :=
  organism ← getitem attrib (lit "ORGANISM");
  getitem msigdb_SPECIES organism.

Definition REACTOME_URL_PREFIX : str := lit "https://www.reactome.org/content/detail/".
Definition GO_URL_PREFIX : str := lit "http://amigo.geneontology.org/amigo/term/GO:".

(** [_get_definition(attrib)]: the full description if it is not blank,
    else the brief one if it is not blank, else None; the two-character
    sequences backslash-d and backslash-s are removed from the text. *)
Definition _get_definition (attrib : gmap (list N) str) : outcome (option str) :=
  full ← getitem attrib (lit "DESCRIPTION_FULL");
  rv ← (if decide (strip full = []) then
          brief ← getitem attrib (lit "DESCRIPTION_BRIEF");
          mret (if decide (strip brief = []) then None else Some (strip brief))
        else mret (Some (strip full)));
  mret (match rv with
        | Some rv => Some (replace (replace rv (lit "\d") []) (lit "\s") [])
        | None => None
        end).

(** Lines 96 to 102 of [iter_terms]: the prefix and the identifier of the
    Reference put in the provenance of the term, or None. *)
Definition msigdb_provenance (attrib : gmap (list N) str)
    : outcome (option (str * str)) :=
  pmid ← getitem attrib (lit "PMID");
  let reference_id := strip pmid in
  mret (if decide (reference_id = []) then None
        else if startswith reference_id (lit "GSE")
        then Some (lit "gse", reference_id)
        else Some (lit "pubmed", reference_id)).


(** Lines 155 to 159 of [iter_terms]: the identifiers of the genes handed
    to [annotate_object], in order. *)
Definition msigdb_members (attrib : gmap (list N) str) : outcome (list str) :=
  members ← getitem attrib (lit "MEMBERS_EZID");
  ids ← split (strip members) (lit ",");
  mret (filter (λ ncbigene_id, ncbigene_id ≠ []) ids).

(** ** pyobo/sources/silva.py: the main taxonomy file *)

Definition semicolon : character := 59.

(** A component of a taxonomy path as the SILVA file writes it: not empty,
    without semicolon, without whitespace around it. *)
Definition clean_component (p : str) : Prop :=
  p ≠ [] ∧ (semicolon ∉ p) ∧ trimmed p.

(** Line 106: the components of a taxonomy string, stripped, the blank
    ones left out. *)
Definition taxonomy_parts (tax_str : str) : outcome (list str) :=
  ps ← split tax_str (lit ";");
  mret (strip <$> filter (λ p, strip p ≠ []) (ps : list str)).

(** Line 123 and line 127: the keys of [tax_path_to_id]. *)
Definition parent_key (parts : list str) : str :=
  join (lit ";") (slice parts None (Some (-1)%Z)) ++ lit ";".

Definition full_key (parts : list str) : str :=
  join (lit ";") parts ++ lit ";".

(** A row of the main taxonomy file, after [fillna]: the columns that the
    loop reads. *)
Record taxonomy_row := {
  row_taxonomy : str;
  row_taxon_id : str;
  row_rank : str;
}.

(** [SILVA_RANK_TO_TAXRANK] *)
Definition SILVA_RANK_TO_TAXRANK : gmap (list N) Reference.t :=
  list_to_map
    ((λ item : string * string,
        (lit item.1, Reference.mk (lit "TAXRANK") (lit item.2) (Some (lit item.1))))
     <$> [("domain", "0000037"); ("major_clade", "0001004");
          ("superkingdom", "0000022"); ("kingdom", "0000017");
          ("subkingdom", "0000029"); ("superphylum", "0000027");
          ("phylum", "0000001"); ("subphylum", "0000008");
          ("infraphylum", "0000040"); ("superclass", "0000015");
          ("class", "0000002"); ("subclass", "0000007");
          ("infraclass", "0000019"); ("superorder", "0000020");
          ("order", "0000003"); ("suborder", "0000014");
          ("superfamily", "0000018"); ("family", "0000004");
          ("subfamily", "0000024"); ("genus", "0000005")]%string).

Section silva_taxonomy.

(** [str.lower], left open: its Unicode case mapping is not modelled. *)
Variable lower : str → str.

(** [has_taxonomy_rank] of pyobo/struct/typedef.py, which is not among the
    sources. *)
Variable has_taxonomy_rank : TypeDef.t.

(** One pass of the first loop of [iter_terms_silva] (lines 101 to 129) on
    the two dicts [tax_path_to_id] and [terms_by_id]; the warnings that the
    loop logs are left out. *)
Definition taxonomy_step
    (st : gmap (list N) str * list (list N * Term.t)) (row : taxonomy_row)
    : outcome (gmap (list N) str * list (list N * Term.t)) :=
  let tax_path_to_id := st.1 in
  let terms_by_id := st.2 in
  let tax_str := strip (row_taxonomy row) in
  let taxon_id := strip (row_taxon_id row) in
  let rank_raw := strip (row_rank row) in
  let rank := lower rank_raw in
  parts ← taxonomy_parts tax_str;
  if decide (parts = []) then mret st
  else
    let name := List.last parts [] in
    reference ← lift (Reference.new silva_PREFIX taxon_id (Some name));
    let term := Term.new reference None [] false in
    term ← match SILVA_RANK_TO_TAXRANK !! rank with
           | Some taxrank =>
               lift (Term.annotate_object term has_taxonomy_rank taxrank)
           | None => mret term
           end;
    term ← (if (1 <? length parts)%nat then
              match tax_path_to_id !! parent_key parts with
              | Some parent_id =>
                  if decide (parent_id = []) then mret term
                  else
                    parent ← lift (Reference.new silva_PREFIX parent_id None);
                    mret (Term.append_parent term parent)
              | None => mret term
              end
            else mret term);
    mret (<[full_key parts := taxon_id]> tax_path_to_id,
          setitem terms_by_id taxon_id term).

(** The first loop of [iter_terms_silva], from two empty dicts. *)
Fixpoint taxonomy_loop
    (st : gmap (list N) str * list (list N * Term.t))
    (rows : list taxonomy_row)
    : outcome (gmap (list N) str * list (list N * Term.t)) :=
  match rows with
  | [] => mret st
  | row :: rows' => st' ← taxonomy_step st row; taxonomy_loop st' rows'
  end.

End silva_taxonomy.

(** What the loop keeps true of its two dicts: the identifiers are
    distinct; every identifier recorded for a path has a term; every term
    is filed under the identifier of its own reference, which is not
    empty and lies in the SILVA namespace; and a term has no parent, or
    one parent that has a term. *)
Definition taxonomy_invariant
    (st : gmap (list N) str * list (list N * Term.t)) : Prop :=
  NoDup st.2.*1
  ∧ (∀ path taxon_id,
       st.1 !! path = Some taxon_id → is_Some (lookup_item st.2 taxon_id))
  ∧ (∀ taxon_id term,
       lookup_item st.2 taxon_id = Some term →
       taxon_id ≠ []
       ∧ Reference.prefix (Term.reference term) = silva_PREFIX
       ∧ Reference.identifier (Term.reference term) = taxon_id
       ∧ (Term.parents term = []
          ∨ ∃ parent_id,
              Term.parents term = [Reference.mk silva_PREFIX parent_id None]
              ∧ is_Some (lookup_item st.2 parent_id))).

(** ** pyobo/sources/hgncgenefamily.py *)

(** [get_hierarchy()] on the rows (parent_fam_id, child_fam_id) of the
    hierarchy file: [d[child_id].append(parent_id)] on a
    [defaultdict(list)]. *)
Definition get_hierarchy (rows : list (str * str)) : gmap (list N) (list str) :=
  foldl (λ d row, <[row.2 := default [] (d !! row.2) ++ [row.1]]> d) ∅ rows.

(** ** pyobo/sources/bigg/bigg_compartment.py *)

(** The loop of [get_compartments()] over the rows of the table, each row
    given by the texts of its td cells: a row without cells is skipped, a
    row is unpacked into exactly two cells. *)
Fixpoint get_compartments_rows (rv : list (list N * str)) (rows : list (list str))
    : outcome (list (list N * str)) :=
  match rows with
  | [] => Return rv
  | cells :: rows' =>
      match cells with
      | [] => get_compartments_rows rv rows'
      | [identifier_cell; name_cell] =>
          get_compartments_rows (setitem rv identifier_cell name_cell) rows'
      | _ => Throw ValueError
      end
  end.

Definition get_compartments (rows : list (list str)) : outcome (list (list N * str)) :=
  get_compartments_rows [] rows.

(** ** Sample values used to run the model *)

Module Sample.

Definition default_reference (prefix identifier : str) (name : option str)
    : Reference.t :=
  Reference.mk prefix identifier name.

Definition hash_tuple (k : str * str) : Z :=
  Z.of_nat (length k.1 + 31 * length k.2).

Definition cytosol : Reference.t :=
  Reference.mk (lit "go") (lit "0005829") (Some (lit "cytosol")).

Definition cytosol_unnamed : Reference.t :=
  Reference.mk (lit "go") (lit "0005829") None.

Definition has_participant : TypeDef.t :=
  TypeDef.new (Reference.mk (lit "RO") (lit "0000057") None) None None.

(** A metadata tag, as [annotate_literal] requires. *)
Definition contributor_tag : TypeDef.t :=
  TypeDef.new
    (Reference.mk (lit "msigdb") (lit "contributor") (Some (lit "contributor")))
    None (Some true).

Definition gene_set : Term.t :=
  Term.new (Reference.mk (lit "msigdb") (lit "M1") None) None [] false.

Definition accession : Term.t :=
  Term.new (Reference.mk (lit "ena.embl") (lit "AB000001") None) None [] false.

Definition taxon : Reference.t :=
  Reference.mk (lit "silva.taxon") (lit "2") None.

End Sample.

(** ** Sample records of the source files *)

Module Data.

(** Two gene sets of the MSigDB file, by the attributes that [iter_terms]
    reads. *)
Definition kegg_gene_set : gmap (list N) str :=
  list_to_map
    [(lit "ORGANISM", lit "Homo sapiens");
     (lit "PMID", lit " 12345678 ");
     (lit "SYSTEMATIC_NAME", lit "M1");
     (lit "STANDARD_NAME", lit "KEGG_GLYCOLYSIS_GLUCONEOGENESIS");
     (lit "CATEGORY_CODE", lit "C2");
     (lit "DESCRIPTION_FULL", lit "  ");
     (lit "DESCRIPTION_BRIEF", lit " Glycolysis / Gluconeogenesis ");
     (lit "CONTRIBUTOR", lit "KEGG");
     (lit "EXACT_SOURCE", []);
     (lit "EXTERNAL_DETAILS_URL",
      lit "http://www.genome.jp/kegg/pathway/hsa/hsa00010.html");
     (lit "MEMBERS_EZID", lit "2597,5230,226")].

Definition go_gene_set : gmap (list N) str :=
  list_to_map
    [(lit "ORGANISM", lit "Homo sapiens");
     (lit "PMID", lit "GSE1234");
     (lit "SYSTEMATIC_NAME", lit "M2");
     (lit "STANDARD_NAME", lit "GOCC_CYTOSOL");
     (lit "CATEGORY_CODE", lit "C5");
     (lit "DESCRIPTION_FULL", lit " Genes annotated \d to the cytosol ");
     (lit "CONTRIBUTOR", lit "Gene Ontology");
     (lit "EXACT_SOURCE", []);
     (lit "EXTERNAL_DETAILS_URL", GO_URL_PREFIX ++ lit "0005829");
     (lit "MEMBERS_EZID", lit " 7157,,672, ")].


(** Rows of the SILVA taxonomy file. *)
Definition bacteria : taxonomy_row :=
  {| row_taxonomy := lit "Bacteria;"; row_taxon_id := lit "3";
     row_rank := lit "domain" |}.

Definition actinomycetota : taxonomy_row :=
  {| row_taxonomy := lit "Bacteria;Actinomycetota;"; row_taxon_id := lit "46";
     row_rank := lit "phylum" |}.

Definition blank_row : taxonomy_row :=
  {| row_taxonomy := lit " ; ;"; row_taxon_id := []; row_rank := [] |}.

(** A lower-casing of the ASCII letters, to run the loop. *)
Definition lower (s : str) : str :=
  (λ c, if (65 <=? c) && (c <=? 90) then c + 32 else c) <$> s.

(** A relation typedef, to run the loop. *)
Definition has_taxonomy_rank : TypeDef.t :=
  TypeDef.new
    (Reference.mk (lit "TAXRANK") (lit "1000000") (Some (lit "has rank")))
    None None.

(** Rows of the BiGG table of compartments, by the texts of their cells,
    the header row having no td cell. *)
Definition compartment_rows : list (list str) :=
  [[]; [lit "c"; lit "cytosol"]; [lit "e"; lit "extracellular space"];
   [lit "c"; lit "cytoplasm"]].

End Data.

(** ** The functions on the specification's examples *)

Example obo_escape_a_b : obo_escape (lit "a b") = lit "a\Wb".
Proof. vm_compute. reflexivity. Qed.

Example obo_escape_slim_a_b : obo_escape_slim (lit "a b") = lit "a b".
Proof. vm_compute. reflexivity. Qed.

Example obo_escape_slim_lines :
  obo_escape_slim (lit "line1" ++ [newline] ++ lit "line2") = lit "line1\nline2".
Proof. vm_compute. reflexivity. Qed.

Example replace_empty_old : replace (lit "abc") [] (lit "-") = lit "-a-b-c-".
Proof. vm_compute. reflexivity. Qed.

Example replace_no_overlap : replace (lit "aaa") (lit "aa") (lit "b") = lit "ba".
Proof. vm_compute. reflexivity. Qed.

(** ** Lemmas on the Python primitives *)

Lemma join_empty_sep (parts : list str) : join [] parts = concat parts.
Proof.
  induction parts as [|p [|q ps] IH]; simpl in *.
  - reflexivity.
  - by rewrite app_nil_r.
  - by rewrite IH.
Qed.

Lemma replace_from_single (c : character) (new s : str) :
  replace_from [c] new 0 s
  = concat ((λ d, if decide (d = c) then new else [d]) <$> s).
Proof.
  induction s as [|d s IH]; simpl; [reflexivity|].
  rewrite IH. destruct (N.eqb_spec c d) as [->|Hne]; simpl.
  - by rewrite decide_True.
  - rewrite decide_False by congruence. reflexivity.
Qed.

Lemma replace_single (c : character) (new s : str) :
  replace s [c] new
  = concat ((λ d, if decide (d = c) then new else [d]) <$> s).
Proof. apply replace_from_single. Qed.

(** A dict comprehension [{c: f(c) for c in l}] evaluated on top of [m]. *)
Lemma lookup_comprehension {V} (f : N → V) (l : list N) (m : gmap N V) (k : N) :
  foldl (λ d c, <[c := f c]> d) m l !! k
  = if decide (k ∈ l) then Some (f k) else m !! k.
Proof.
  revert m. induction l as [|a l IH]; intros m; simpl.
  - reflexivity.
  - rewrite IH.
    destruct (decide (k ∈ l)) as [H1|H1], (decide (k ∈ a :: l)) as [H2|H2].
    + reflexivity.
    + exfalso. apply H2. by right.
    + apply elem_of_cons in H2 as [->|H2]; [apply lookup_insert_eq | contradiction].
    + apply lookup_insert_ne. intros ->. apply H2. by left.
Qed.

(** ** The tables *)

Lemma OBO_ESCAPE_SLIM_chars_eq : OBO_ESCAPE_SLIM_chars = escaped_characters.
Proof. reflexivity. Qed.

Lemma escaped_characters_NoDup : NoDup escaped_characters.
Proof. apply (bool_decide_unpack _). vm_compute. reflexivity. Qed.

Lemma lookup_OBO_ESCAPE_SLIM (c : character) :
  OBO_ESCAPE_SLIM !! c
  = if decide (c ∈ escaped_characters) then Some [backslash; c] else None.
Proof.
  unfold OBO_ESCAPE_SLIM. rewrite lookup_comprehension, OBO_ESCAPE_SLIM_chars_eq.
  repeat case_decide; first [reflexivity | contradiction | apply lookup_empty].
Qed.

Lemma space_not_escaped : space ∉ escaped_characters.
Proof. apply (bool_decide_unpack _). vm_compute. reflexivity. Qed.

Lemma newline_not_escaped : newline ∉ escaped_characters.
Proof. apply (bool_decide_unpack _). vm_compute. reflexivity. Qed.

Lemma lookup_OBO_ESCAPE (c : character) :
  OBO_ESCAPE !! c
  = if decide (c ∈ escaped_characters) then Some [backslash; c]
    else if decide (c = space) then Some [backslash; letter_W] else None.
Proof.
  unfold OBO_ESCAPE, unpack. rewrite lookup_union, lookup_OBO_ESCAPE_SLIM.
  destruct (decide (c ∈ escaped_characters)) as [Hin|Hnin].
  - destruct (decide (c = space)) as [->|Hne].
    + by destruct space_not_escaped.
    + by rewrite lookup_singleton_ne.
  - destruct (decide (c = space)) as [->|Hne].
    + by rewrite lookup_singleton_eq.
    + by rewrite lookup_singleton_ne.
Qed.

Lemma get_OBO_ESCAPE (c : character) :
  get OBO_ESCAPE c [c] = full_substitution c.
Proof.
  unfold get, full_substitution. rewrite lookup_OBO_ESCAPE.
  repeat case_decide; first [reflexivity | contradiction].
Qed.

Lemma get_OBO_ESCAPE_SLIM (c : character) :
  get OBO_ESCAPE_SLIM c [c] = slim_table_substitution c.
Proof.
  unfold get, slim_table_substitution. rewrite lookup_OBO_ESCAPE_SLIM.
  repeat case_decide; first [reflexivity | contradiction].
Qed.

(** ** Closed forms of the two functions *)

Lemma obo_escape_concat (s : str) :
  obo_escape s = concat (full_substitution <$> s).
Proof.
  unfold obo_escape. rewrite join_empty_sep. f_equal.
  apply list_fmap_ext. intros _ c _. apply get_OBO_ESCAPE.
Qed.

Lemma obo_escape_slim_table_pass (s : str) :
  obo_escape_slim s
  = replace (concat (slim_table_substitution <$> s)) [newline] [backslash; letter_n].
Proof.
  unfold obo_escape_slim. rewrite join_empty_sep. do 2 f_equal.
  apply list_fmap_ext. intros _ c _. apply get_OBO_ESCAPE_SLIM.
Qed.

Lemma backslash_escaped : backslash ∈ escaped_characters.
Proof. apply (bool_decide_unpack _). vm_compute. reflexivity. Qed.

Lemma letter_W_not_escaped : letter_W ∉ escaped_characters.
Proof. apply (bool_decide_unpack _). vm_compute. reflexivity. Qed.

Lemma letter_n_not_escaped : letter_n ∉ escaped_characters.
Proof. apply (bool_decide_unpack _). vm_compute. reflexivity. Qed.

(** Facts on one character, saturated from what is known about its
    membership in the table. *)
Ltac character_facts :=
  repeat match goal with
    | H : ?c ∈ escaped_characters |- _ =>
        lazymatch goal with
        | _ : c ≠ newline |- _ => fail
        | _ =>
            assert (c ≠ newline) by (intros ->; exact (newline_not_escaped H));
            assert (c ≠ space) by (intros ->; exact (space_not_escaped H));
            assert (c ≠ letter_W) by (intros ->; exact (letter_W_not_escaped H));
            assert (c ≠ letter_n) by (intros ->; exact (letter_n_not_escaped H))
        end
    | H : ?c ∉ escaped_characters |- _ =>
        lazymatch goal with
        | _ : c ≠ backslash |- _ => fail
        | _ => assert (c ≠ backslash) by (intros ->; exact (H backslash_escaped))
        end
    end.

Ltac by_characters :=
  character_facts;
  repeat first
    [ rewrite decide_True by (assumption || reflexivity)
    | rewrite decide_False by (assumption || congruence || discriminate) ];
  try (reflexivity || congruence || discriminate).

Lemma newline_replacement_of_table_pass (c : character) :
  concat ((λ d, if decide (d = newline) then [backslash; letter_n] else [d])
            <$> slim_table_substitution c)
  = slim_substitution c.
Proof.
  unfold slim_table_substitution, slim_substitution.
  destruct (decide (c ∈ escaped_characters)) as [Hin|Hnin]; simpl.
  - by_characters.
  - destruct (decide (c = newline)); reflexivity.
Qed.

Lemma obo_escape_slim_concat (s : str) :
  obo_escape_slim s = concat (slim_substitution <$> s).
Proof.
  rewrite obo_escape_slim_table_pass, replace_single.
  induction s as [|c s IH]; [reflexivity|].
  rewrite !fmap_cons, !concat_cons, fmap_app, concat_app, IH. f_equal.
  apply newline_replacement_of_table_pass.
Qed.

Lemma obo_escape_app (s1 s2 : str) :
  obo_escape (s1 ++ s2) = obo_escape s1 ++ obo_escape s2.
Proof. by rewrite !obo_escape_concat, fmap_app, concat_app. Qed.

Lemma obo_escape_slim_app (s1 s2 : str) :
  obo_escape_slim (s1 ++ s2) = obo_escape_slim s1 ++ obo_escape_slim s2.
Proof. by rewrite !obo_escape_slim_concat, fmap_app, concat_app. Qed.

Lemma obo_escape_single (c : character) : obo_escape [c] = full_substitution c.
Proof. rewrite obo_escape_concat. simpl. apply app_nil_r. Qed.

Lemma obo_escape_slim_single (c : character) :
  obo_escape_slim [c] = slim_substitution c.
Proof. rewrite obo_escape_slim_concat. simpl. apply app_nil_r. Qed.

Lemma full_substitution_length (c : character) :
  (1 ≤ length (full_substitution c) ≤ 2)%nat.
Proof. unfold full_substitution. repeat case_decide; simpl; lia. Qed.

Lemma slim_substitution_length (c : character) :
  (1 ≤ length (slim_substitution c) ≤ 2)%nat.
Proof. unfold slim_substitution. repeat case_decide; simpl; lia. Qed.

Lemma full_substitution_fixed (c : character) :
  full_substitution c = [c] ↔ ¬ (c ∈ escaped_characters ∨ c = space).
Proof.
  unfold full_substitution. repeat case_decide; split; try discriminate; tauto.
Qed.

Lemma slim_substitution_fixed (c : character) :
  slim_substitution c = [c] ↔ ¬ (c ∈ escaped_characters ∨ c = newline).
Proof.
  unfold slim_substitution. repeat case_decide; split; try discriminate; tauto.
Qed.

Lemma full_substitution_backslash_prefix (c : character) :
  full_substitution c = [backslash; c] ↔ c ∈ escaped_characters.
Proof.
  unfold full_substitution. split.
  - repeat case_decide; [done | subst c; discriminate | discriminate].
  - intros Hin. by rewrite decide_True.
Qed.

(** ** The escaping claims *)

Lemma backslash_prefix_iff (c : character) :
  obo_escape [c] = [backslash; c] ↔ c ∈ escaped_characters.
Proof. rewrite obo_escape_single. apply full_substitution_backslash_prefix. Qed.

(** C2 (as amended): [obo_escape] maps each character of its input
    independently. Each of the TEN characters colon, comma, double quote,
    backslash, the two parentheses, the two square brackets and the two
    curly braces becomes a backslash followed by that character, the space
    becomes backslash-W, every other character is unchanged; and
    [obo_escape("a b")] is the four characters a, backslash, W, b. *)
Theorem obo_escape_substitution :
  OBO_ESCAPE_SLIM_chars
  = [colon; comma; dquote; backslash; lparen; rparen;
     lbracket; rbracket; lbrace; rbrace]
  ∧ escaped_characters = OBO_ESCAPE_SLIM_chars
  ∧ length escaped_characters = 10%nat
  ∧ NoDup escaped_characters
  ∧ (∀ c : character,
       obo_escape [c]
       = if decide (c ∈ escaped_characters) then [backslash; c]
         else if decide (c = space) then [backslash; letter_W]
         else [c])
  ∧ (∀ s : str, obo_escape s = concat ((λ c, obo_escape [c]) <$> s))
  ∧ obo_escape (lit "a b") = lit "a" ++ [backslash; letter_W] ++ lit "b"
  ∧ len (obo_escape (lit "a b")) = 4%nat.
Proof.
  split_and!; try reflexivity.
  - apply escaped_characters_NoDup.
  - intros c. apply obo_escape_single.
  - intros s. rewrite obo_escape_concat. f_equal.
    apply list_fmap_ext. intros _ c _. symmetry. apply obo_escape_single.
Qed.

(** C2, as stated, counts nine backslash-prefixed characters: no list of
    nine distinct characters is the set of characters that [obo_escape]
    turns into a backslash followed by the character itself. *)
Lemma obo_escape_not_nine_characters :
  ¬ ∃ l : list character,
      NoDup l ∧ length l = 9%nat
      ∧ ∀ c, c ∈ l ↔ obo_escape [c] = [backslash; c].
Proof.
  intros (l & Hnd & Hlen & Hl).
  assert (Hperm : l ≡ₚ escaped_characters).
  { apply NoDup_Permutation; [assumption | apply escaped_characters_NoDup |].
    intros c. rewrite Hl. apply backslash_prefix_iff. }
  apply Permutation_length in Hperm. rewrite Hlen in Hperm. discriminate.
Qed.

Lemma OBO_ESCAPE_SLIM_size : size OBO_ESCAPE_SLIM = 10%nat.
Proof. vm_compute. reflexivity. Qed.

(** C3 (as amended): [obo_escape_slim] applies the same escape table as
    [obo_escape], a table of TEN characters, without the entry of the
    space (a space is left untouched), and after that pass replaces every
    newline by backslash-n; [obo_escape_slim("a b") == "a b"], and
    line1, newline, line2 becomes line1, backslash, n, line2. *)
Theorem obo_escape_slim_substitution :
  OBO_ESCAPE_SLIM = delete space OBO_ESCAPE
  ∧ size OBO_ESCAPE_SLIM = 10%nat
  ∧ dom OBO_ESCAPE_SLIM = list_to_set escaped_characters
  ∧ (∀ s : str,
       obo_escape_slim s
       = replace (concat ((λ c, if decide (c ∈ escaped_characters)
                                then [backslash; c] else [c]) <$> s))
           [newline] [backslash; letter_n])
  ∧ (∀ s : str,
       obo_escape_slim s
       = concat ((λ c, if decide (c ∈ escaped_characters) then [backslash; c]
                       else if decide (c = newline) then [backslash; letter_n]
                       else [c]) <$> s))
  ∧ obo_escape_slim [space] = [space]
  ∧ obo_escape_slim (lit "a b") = lit "a b"
  ∧ obo_escape_slim (lit "line1" ++ [newline] ++ lit "line2")
    = lit "line1" ++ [backslash; letter_n] ++ lit "line2".
Proof.
  split_and!; try reflexivity.
  - apply obo_escape_slim_table_pass.
  - apply obo_escape_slim_concat.
Qed.

(** C3, as stated, speaks of a nine-character escape table: the table
    [OBO_ESCAPE_SLIM] does not have nine entries. *)
Lemma OBO_ESCAPE_SLIM_not_nine_characters : size OBO_ESCAPE_SLIM ≠ 9%nat.
Proof. rewrite OBO_ESCAPE_SLIM_size. discriminate. Qed.

(** C4: each function equals the left-to-right concatenation of the
    substitutions of the characters of its input, so output already
    produced is never scanned again: a single backslash gives exactly the
    two characters backslash, backslash, not the four that escaping the
    output once more gives. *)
Theorem escape_no_rescan :
  (∀ s : str, obo_escape s = concat ((λ c, obo_escape [c]) <$> s))
  ∧ (∀ s : str, obo_escape_slim s = concat ((λ c, obo_escape_slim [c]) <$> s))
  ∧ (∀ s1 s2 : str, obo_escape (s1 ++ s2) = obo_escape s1 ++ obo_escape s2)
  ∧ (∀ s1 s2 : str,
       obo_escape_slim (s1 ++ s2) = obo_escape_slim s1 ++ obo_escape_slim s2)
  ∧ (∀ c : character, (len (obo_escape [c]) ≤ 2)%nat)
  ∧ (∀ c : character, (len (obo_escape_slim [c]) ≤ 2)%nat)
  ∧ obo_escape [backslash] = [backslash; backslash]
  ∧ obo_escape_slim [backslash] = [backslash; backslash]
  ∧ len (obo_escape [backslash]) = 2%nat
  ∧ len (obo_escape_slim [backslash]) = 2%nat
  ∧ obo_escape (obo_escape [backslash])
    = [backslash; backslash; backslash; backslash]
  ∧ obo_escape [backslash] ≠ [backslash; backslash; backslash; backslash]
  ∧ obo_escape_slim [backslash] ≠ [backslash; backslash; backslash; backslash].
Proof.
  split_and!; try reflexivity; try discriminate.
  - intros s. rewrite obo_escape_concat. f_equal.
    apply list_fmap_ext. intros _ c _. symmetry. apply obo_escape_single.
  - intros s. rewrite obo_escape_slim_concat. f_equal.
    apply list_fmap_ext. intros _ c _. symmetry. apply obo_escape_slim_single.
  - apply obo_escape_app.
  - apply obo_escape_slim_app.
  - intros c. rewrite obo_escape_single. apply full_substitution_length.
  - intros c. rewrite obo_escape_slim_single. apply slim_substitution_length.
Qed.

(** The loop that the specification rules out is a different function:
    it escapes the backslash that it has itself put in front of a colon or
    of the W of a space. On a single backslash it agrees with
    [obo_escape]. *)
Lemma naive_escape_double_escapes :
  list_to_map OBO_ESCAPE_items = OBO_ESCAPE
  ∧ naive_escape [colon] = [backslash; backslash; colon]
  ∧ obo_escape [colon] = [backslash; colon]
  ∧ naive_escape (lit "a b") = lit "a\\Wb"
  ∧ obo_escape (lit "a b") = lit "a\Wb"
  ∧ naive_escape [backslash] = [backslash; backslash].
Proof. split_and!; vm_compute; reflexivity. Qed.

Lemma obo_escape_fixed (s : str) :
  Forall (λ c, ¬ (c ∈ escaped_characters ∨ c = space)) s → obo_escape s = s.
Proof.
  rewrite obo_escape_concat.
  induction 1 as [|c s Hc _ IH]; [reflexivity|].
  rewrite fmap_cons, concat_cons, IH.
  apply full_substitution_fixed in Hc. by rewrite Hc.
Qed.

Lemma obo_escape_slim_fixed (s : str) :
  Forall (λ c, ¬ (c ∈ escaped_characters ∨ c = newline)) s →
  obo_escape_slim s = s.
Proof.
  rewrite obo_escape_slim_concat.
  induction 1 as [|c s Hc _ IH]; [reflexivity|].
  rewrite fmap_cons, concat_cons, IH.
  apply slim_substitution_fixed in Hc. by rewrite Hc.
Qed.

(** The reserved characters are exactly the characters that one of the
    two functions changes. *)
Lemma reserved_iff_changed (c : character) :
  reserved c ↔ obo_escape [c] ≠ [c] ∨ obo_escape_slim [c] ≠ [c].
Proof.
  rewrite obo_escape_single, obo_escape_slim_single.
  rewrite full_substitution_fixed, slim_substitution_fixed.
  unfold reserved.
  destruct (decide (c ∈ escaped_characters)), (decide (c = space)),
    (decide (c = newline)); tauto.
Qed.

(** C5: on a string that contains none of the reserved characters (the
    characters of the table, the space and the newline) both functions are
    the identity. *)
Theorem escape_identity_without_reserved (s : str) :
  Forall (λ c, ¬ reserved c) s →
  obo_escape s = s ∧ obo_escape_slim s = s.
Proof.
  intros Hs. split.
  - apply obo_escape_fixed. eapply Forall_impl; [exact Hs|].
    unfold reserved. intros c Hc. tauto.
  - apply obo_escape_slim_fixed. eapply Forall_impl; [exact Hs|].
    unfold reserved. intros c Hc. tauto.
Qed.

Lemma escape_identity_without_reserved_witness :
  Forall (λ c, ¬ reserved c) (lit "has_participant")
  ∧ obo_escape (lit "has_participant") = lit "has_participant"
  ∧ obo_escape_slim (lit "has_participant") = lit "has_participant".
Proof.
  assert (H : Forall (λ c, ¬ reserved c) (lit "has_participant")).
  { apply (bool_decide_unpack _). vm_compute. reflexivity. }
  split; [exact H|].
  apply (escape_identity_without_reserved (lit "has_participant") H).
Defined.

Lemma concat_length_ge {A} (f : A → list A) (s : list A) :
  (∀ c, 1 ≤ length (f c))%nat → (length s ≤ length (concat (f <$> s)))%nat.
Proof.
  intros Hf. induction s as [|c s IH]; [reflexivity|].
  rewrite fmap_cons, concat_cons, length_app. simpl.
  specialize (Hf c). lia.
Qed.

(** C8: both functions return a string on every input, and the result is
    at least as long as the input. *)
Theorem escape_total_length (s : str) :
  (∃ r : str, obo_escape s = r ∧ (len s ≤ len r)%nat)
  ∧ (∃ r : str, obo_escape_slim s = r ∧ (len s ≤ len r)%nat).
Proof.
  split; eexists; (split; [reflexivity|]); unfold len.
  - rewrite obo_escape_concat. apply concat_length_ge.
    intros c. apply full_substitution_length.
  - rewrite obo_escape_slim_concat. apply concat_length_ge.
    intros c. apply slim_substitution_length.
Qed.

Lemma obo_unescape_substitution (c : character) (r : str) :
  obo_unescape (full_substitution c ++ r) = c :: obo_unescape r.
Proof.
  unfold full_substitution.
  destruct (decide (c ∈ escaped_characters)) as [Hin|Hnin];
    [|destruct (decide (c = space)) as [->|Hsp]]; simpl.
  - by_characters.
  - reflexivity.
  - by_characters.
Qed.

Lemma obo_unescape_slim_substitution (c : character) (r : str) :
  obo_unescape_slim (slim_substitution c ++ r) = c :: obo_unescape_slim r.
Proof.
  unfold slim_substitution.
  destruct (decide (c ∈ escaped_characters)) as [Hin|Hnin];
    [|destruct (decide (c = newline)) as [->|Hnl]]; simpl.
  - by_characters.
  - reflexivity.
  - by_characters.
Qed.

Lemma obo_unescape_escape (s : str) : obo_unescape (obo_escape s) = s.
Proof.
  rewrite obo_escape_concat.
  induction s as [|c s IH]; [reflexivity|].
  by rewrite fmap_cons, concat_cons, obo_unescape_substitution, IH.
Qed.

Lemma obo_unescape_slim_escape_slim (s : str) :
  obo_unescape_slim (obo_escape_slim s) = s.
Proof.
  rewrite obo_escape_slim_concat.
  induction s as [|c s IH]; [reflexivity|].
  by rewrite fmap_cons, concat_cons, obo_unescape_slim_substitution, IH.
Qed.

(** C9: each function has a decoder that recovers every input from its
    escaped form, and is therefore injective. *)
Theorem escape_injective :
  (∀ s : str, obo_unescape (obo_escape s) = s)
  ∧ (∀ s : str, obo_unescape_slim (obo_escape_slim s) = s)
  ∧ (∀ s1 s2 : str, obo_escape s1 = obo_escape s2 → s1 = s2)
  ∧ (∀ s1 s2 : str, obo_escape_slim s1 = obo_escape_slim s2 → s1 = s2).
Proof.
  split_and!.
  - apply obo_unescape_escape.
  - apply obo_unescape_slim_escape_slim.
  - intros s1 s2 H.
    rewrite <- (obo_unescape_escape s1), <- (obo_unescape_escape s2).
    by rewrite H.
  - intros s1 s2 H.
    rewrite <- (obo_unescape_slim_escape_slim s1),
      <- (obo_unescape_slim_escape_slim s2).
    by rewrite H.
Qed.

Lemma escape_injective_witness :
  (obo_escape (lit "a b: c") = obo_escape [97; 32; 98; 58; 32; 99]
   ∧ lit "a b: c" = [97; 32; 98; 58; 32; 99])
  ∧ (obo_escape_slim (lit "a" ++ [newline] ++ lit "\n")
     = obo_escape_slim [97; 10; 92; 110]
     ∧ lit "a" ++ [newline] ++ lit "\n" = [97; 10; 92; 110]).
Proof.
  destruct escape_injective as (_ & _ & Hfull & Hslim).
  assert (H1 : obo_escape (lit "a b: c") = obo_escape [97; 32; 98; 58; 32; 99])
    by (vm_compute; reflexivity).
  assert (H2 : obo_escape_slim (lit "a" ++ [newline] ++ lit "\n")
               = obo_escape_slim [97; 10; 92; 110])
    by (vm_compute; reflexivity).
  split; (split; [assumption|]).
  - exact (Hfull _ _ H1).
  - exact (Hslim _ _ H2).
Defined.

Lemma count_newlines_app (s1 s2 : str) :
  count_newlines (s1 ++ s2) = (count_newlines s1 + count_newlines s2)%nat.
Proof. unfold count_newlines. by rewrite filter_app, length_app. Qed.

Lemma count_newlines_full_substitution (c : character) :
  count_newlines (full_substitution c) = count_newlines [c].
Proof.
  unfold full_substitution.
  destruct (decide (c ∈ escaped_characters)) as [Hin|Hnin];
    [|destruct (decide (c = space)) as [->|Hsp]]; [|reflexivity..].
  character_facts. unfold count_newlines.
  rewrite (filter_cons_False _ backslash) by discriminate.
  by rewrite !filter_cons_False, filter_nil by assumption.
Qed.

Lemma count_newlines_obo_escape (s : str) :
  count_newlines (obo_escape s) = count_newlines s.
Proof.
  rewrite obo_escape_concat.
  induction s as [|c s IH]; [reflexivity|].
  rewrite fmap_cons, concat_cons, count_newlines_app, IH,
    count_newlines_full_substitution.
  by rewrite <- count_newlines_app.
Qed.

Lemma newline_not_in_slim_substitution (c : character) :
  newline ∉ slim_substitution c.
Proof.
  unfold slim_substitution.
  destruct (decide (c ∈ escaped_characters)) as [Hin|Hnin];
    [|destruct (decide (c = newline)) as [->|Hnl]].
  - character_facts. intros [?|[?|[]%elem_of_nil]%elem_of_cons]%elem_of_cons;
      [discriminate | congruence].
  - intros [?|[?|[]%elem_of_nil]%elem_of_cons]%elem_of_cons; discriminate.
  - intros [?|[]%elem_of_nil]%elem_of_cons. congruence.
Qed.

Lemma newline_not_in_obo_escape_slim (s : str) : newline ∉ obo_escape_slim s.
Proof.
  rewrite obo_escape_slim_concat.
  induction s as [|c s IH]; [apply not_elem_of_nil|].
  rewrite fmap_cons, concat_cons, elem_of_app.
  intros [H|H]; [exact (newline_not_in_slim_substitution c H) | exact (IH H)].
Qed.

(** C10: the table of the full escape has no entry for the newline, so
    [obo_escape] leaves every newline of its input in place (and adds
    none): its output can span several lines. Only [obo_escape_slim] turns
    a newline into backslash-n. *)
Theorem obo_escape_keeps_newline :
  OBO_ESCAPE !! newline = None
  ∧ obo_escape [newline] = [newline]
  ∧ (∀ s1 s2 : str,
       obo_escape (s1 ++ newline :: s2)
       = obo_escape s1 ++ newline :: obo_escape s2)
  ∧ (∀ s : str, count_newlines (obo_escape s) = count_newlines s)
  ∧ obo_escape (lit "line1" ++ [newline] ++ lit "line2")
    = lit "line1" ++ [newline] ++ lit "line2"
  ∧ obo_escape_slim [newline] = [backslash; letter_n]
  ∧ (∀ s : str, newline ∉ obo_escape_slim s).
Proof.
  split_and!; try reflexivity.
  - intros s1 s2. change (newline :: s2) with ([newline] ++ s2).
    by rewrite !obo_escape_app.
  - apply count_newlines_obo_escape.
  - apply newline_not_in_obo_escape_slim.
Qed.

(** ** The term model *)

Lemma Reference_eqb_spec (r1 r2 : Reference.t) :
  Reference.eqb r1 r2 = true
  ↔ Reference.prefix r1 = Reference.prefix r2
    ∧ Reference.identifier r1 = Reference.identifier r2.
Proof. unfold Reference.eqb. rewrite bool_decide_eq_true. reflexivity. Qed.

Lemma Reference_eqb_refl (r : Reference.t) : Reference.eqb r r = true.
Proof. by apply Reference_eqb_spec. Qed.

Lemma Reference_eqb_sym (r1 r2 : Reference.t) :
  Reference.eqb r1 r2 = Reference.eqb r2 r1.
Proof.
  unfold Reference.eqb. apply bool_decide_ext. split; intros [-> ->]; done.
Qed.

Lemma Reference_eqb_trans (r1 r2 r3 : Reference.t) :
  Reference.eqb r1 r2 = true → Reference.eqb r2 r3 = true →
  Reference.eqb r1 r3 = true.
Proof.
  rewrite !Reference_eqb_spec. intros [-> ->] [-> ->]. done.
Qed.

Lemma Reference_new_ok (p i : str) (n : option str) :
  p ≠ [] → i ≠ [] → Reference.new p i n = Ok (Reference.mk p i n).
Proof.
  intros Hp Hi. unfold Reference.new.
  by rewrite !decide_False by assumption.
Qed.

Lemma TypeDef_eqb_refl (t : TypeDef.t) : TypeDef.eqb t t = true.
Proof. apply Reference_eqb_refl. Qed.

Lemma edge_eqb_refl (e : TypeDef.t * Reference.t) : Term.edge_eqb e e = true.
Proof.
  unfold Term.edge_eqb. by rewrite TypeDef_eqb_refl, Reference_eqb_refl.
Qed.

(** C1: [annotate_object] fails with InvalidTypeDef exactly on a
    metadata-tag TypeDef, and [annotate_literal] fails with InvalidTypeDef
    exactly on a TypeDef that is not a metadata tag; the check is made by
    the call itself, whatever the term. *)
Theorem annotate_directionality :
  (∀ (self : Term.t) (t : TypeDef.t) (r : Reference.t),
     Term.annotate_object self t r = Raise InvalidTypeDef
     ↔ TypeDef.is_metadata_tag t = true)
  ∧ (∀ (self : Term.t) (t : TypeDef.t) (v : str),
       Term.annotate_literal self t v = Raise InvalidTypeDef
       ↔ TypeDef.is_metadata_tag t = false)
  ∧ (∀ (self : Term.t) (t : TypeDef.t) (r : Reference.t),
       TypeDef.is_metadata_tag t = false ↔
       ∃ self', Term.annotate_object self t r = Ok self')
  ∧ (∀ (self : Term.t) (t : TypeDef.t) (v : str),
       TypeDef.is_metadata_tag t = true ↔
       ∃ self', Term.annotate_literal self t v = Ok self').
Proof.
  split_and!; intros self t x;
    unfold Term.annotate_object, Term.annotate_literal;
    destruct (TypeDef.is_metadata_tag t); try destruct (existsb _ _);
    split; try done; try (intros [? [=]]); by eexists.
Qed.

Lemma existsb_ext {A} (f g : A → bool) (l : list A) :
  (∀ x, f x = g x) → existsb f l = existsb g l.
Proof. intros H. induction l as [|x l IH]; simpl; [done | by rewrite H, IH]. Qed.

Lemma Reference_eqb_congr (r1 r2 x : Reference.t) :
  Reference.eqb r1 r2 = true → Reference.eqb r1 x = Reference.eqb r2 x.
Proof.
  intros [Hp Hi]%Reference_eqb_spec. unfold Reference.eqb.
  by rewrite Hp, Hi.
Qed.

Lemma Reference_mem_congr (r1 r2 : Reference.t) (refs : list Reference.t) :
  Reference.eqb r1 r2 = true → Reference.mem r1 refs = Reference.mem r2 refs.
Proof.
  intros H. unfold Reference.mem. apply existsb_ext.
  intros x. by apply Reference_eqb_congr.
Qed.

Lemma Reference_mem_last (r : Reference.t) (refs : list Reference.t) :
  Reference.mem r (refs ++ [r]) = true.
Proof.
  unfold Reference.mem. rewrite existsb_app. simpl.
  rewrite Reference_eqb_refl. by destruct (existsb _ refs).
Qed.

Lemma append_parent_present (self : Term.t) (r : Reference.t) :
  Reference.mem r (Term.parents (Term.append_parent self r)) = true.
Proof.
  unfold Term.append_parent.
  destruct (Reference.mem r (Term.parents self)) eqn:Hmem; [assumption|].
  apply Reference_mem_last.
Qed.

Lemma append_parent_twice (self : Term.t) (r1 r2 : Reference.t) :
  Reference.eqb r1 r2 = true →
  Term.append_parent (Term.append_parent self r1) r2
  = Term.append_parent self r1.
Proof.
  intros Heq. unfold Term.append_parent at 1.
  rewrite <- (Reference_mem_congr r1 r2) by assumption.
  by rewrite append_parent_present.
Qed.

Lemma edge_eqb_congr (t : TypeDef.t) (r1 r2 : Reference.t)
    (e : TypeDef.t * Reference.t) :
  Reference.eqb r1 r2 = true →
  Term.edge_eqb (t, r1) e = Term.edge_eqb (t, r2) e.
Proof.
  intros H. unfold Term.edge_eqb. simpl. f_equal.
  by apply Reference_eqb_congr.
Qed.

Lemma annotate_object_present (self self' : Term.t) (t : TypeDef.t)
    (r : Reference.t) :
  Term.annotate_object self t r = Ok self' →
  existsb (Term.edge_eqb (t, r)) (Term.annotations_object self') = true.
Proof.
  unfold Term.annotate_object.
  destruct (TypeDef.is_metadata_tag t); [discriminate|].
  destruct (existsb _ (Term.annotations_object self)) eqn:Hex;
    intros [= <-]; [assumption|]. simpl.
  rewrite existsb_app. simpl. rewrite edge_eqb_refl.
  by destruct (existsb _ _).
Qed.

Lemma annotate_object_twice (self : Term.t) (t : TypeDef.t)
    (r1 r2 : Reference.t) :
  TypeDef.is_metadata_tag t = false → Reference.eqb r1 r2 = true →
  ∃ self', Term.annotate_object self t r1 = Ok self'
           ∧ Term.annotate_object self' t r2 = Ok self'.
Proof.
  intros Ht Heq.
  assert (∃ self', Term.annotate_object self t r1 = Ok self') as [self' H1].
  { unfold Term.annotate_object. rewrite Ht.
    destruct (existsb _ _); by eexists. }
  exists self'. split; [assumption|].
  apply annotate_object_present in H1.
  unfold Term.annotate_object. rewrite Ht.
  rewrite (existsb_ext _ (Term.edge_eqb (t, r1))), H1; [reflexivity|].
  intros e. symmetry. by apply edge_eqb_congr.
Qed.

Lemma literals_append_literal (d : list (TypeDef.t * list str))
    (t : TypeDef.t) (v : str) :
  Term.literals (Term.append_literal d t v) t = Term.literals d t ++ [v].
Proof.
  induction d as [|[k vs] d IH]; simpl.
  - by rewrite TypeDef_eqb_refl.
  - destruct (TypeDef.eqb k t) eqn:Hk; simpl; by rewrite Hk.
Qed.

Lemma annotate_literal_twice (self : Term.t) (t : TypeDef.t) (v : str) :
  TypeDef.is_metadata_tag t = true →
  ∃ self' self'',
    Term.annotate_literal self t v = Ok self'
    ∧ Term.annotate_literal self' t v = Ok self''
    ∧ Term.literals (Term.annotations_literal self'') t
      = Term.literals (Term.annotations_literal self) t ++ [v; v].
Proof.
  intros Ht. unfold Term.annotate_literal. rewrite Ht.
  do 2 eexists. split_and!; [reflexivity..|]. simpl.
  by rewrite !literals_append_literal, <- app_assoc.
Qed.

(** C6: the set-versus-sequence asymmetry of the mutation API. A second
    [append_parent] with an equal Reference changes nothing, so a term
    without parents ends with exactly one; a second [annotate_object] with
    the same (typedef, reference) pair changes nothing, so a term without
    edges ends with exactly one; a second [annotate_literal] with the same
    (typedef, value) pair adds a second entry, after the first. *)
Theorem set_versus_sequence (self : Term.t) (r1 r2 : Reference.t)
    (relation tag : TypeDef.t) (v : str) :
  Reference.eqb r1 r2 = true →
  TypeDef.is_metadata_tag relation = false →
  TypeDef.is_metadata_tag tag = true →
  Term.append_parent (Term.append_parent self r1) r2
  = Term.append_parent self r1
  ∧ (Term.parents self = [] →
     Term.parents (Term.append_parent (Term.append_parent self r1) r2) = [r1])
  ∧ (∃ self',
       Term.annotate_object self relation r1 = Ok self'
       ∧ Term.annotate_object self' relation r2 = Ok self'
       ∧ (Term.annotations_object self = [] →
          Term.annotations_object self' = [(relation, r1)]
          ∧ length (Term.edges self' relation r1) = 1%nat))
  ∧ (∃ self' self'',
       Term.annotate_literal self tag v = Ok self'
       ∧ Term.annotate_literal self' tag v = Ok self''
       ∧ Term.literals (Term.annotations_literal self'') tag
         = Term.literals (Term.annotations_literal self) tag ++ [v; v]
       ∧ (Term.annotations_literal self = [] →
          Term.annotations_literal self'' = [(tag, [v; v])])).
Proof.
  intros Heq Hrel Htag. split_and!.
  - by apply append_parent_twice.
  - intros Hnone. rewrite append_parent_twice by assumption.
    unfold Term.append_parent. by rewrite Hnone.
  - destruct (annotate_object_twice self relation r1 r2 Hrel Heq)
      as (self' & H1 & H2).
    exists self'. split_and!; [assumption..|].
    intros Hnone. revert H1. unfold Term.annotate_object.
    rewrite Hrel, Hnone. simpl. intros [= <-]. unfold Term.edges. simpl.
    by rewrite edge_eqb_refl.
  - destruct (annotate_literal_twice self tag v Htag)
      as (self' & self'' & H1 & H2 & H3).
    exists self', self''. split_and!; [assumption..|].
    intros Hnone. revert H1 H2. unfold Term.annotate_literal.
    rewrite Htag. intros [= <-] [= <-]. simpl. rewrite Hnone. simpl.
    by rewrite TypeDef_eqb_refl.
Qed.

Lemma set_versus_sequence_witness :
  Term.parents
    (Term.append_parent (Term.append_parent Sample.gene_set Sample.cytosol)
       Sample.cytosol_unnamed)
  = [Sample.cytosol]
  ∧ ((term ← Term.annotate_object Sample.gene_set Sample.has_participant
               Sample.cytosol;
      Term.annotate_object term Sample.has_participant Sample.cytosol_unnamed)
     = Ok (Term.set_annotations_object Sample.gene_set
             [(Sample.has_participant, Sample.cytosol)]))
  ∧ ((term ← Term.annotate_literal Sample.gene_set
               Sample.contributor_tag (lit "x");
      Term.annotate_literal term Sample.contributor_tag
        (lit "x"))
     = Ok (Term.set_annotations_literal Sample.gene_set
             [(Sample.contributor_tag, [lit "x"; lit "x"])])).
Proof.
  destruct (set_versus_sequence Sample.gene_set Sample.cytosol
              Sample.cytosol_unnamed Sample.has_participant
              Sample.contributor_tag (lit "x"))
    as (_ & Hparents & _ & _); [reflexivity..|].
  split; [exact (Hparents eq_refl)|].
  split; reflexivity.
Defined.

(** C7: a Reference built from a non-empty prefix and a non-empty
    identifier equals the Reference built from the same pair with any
    other name, or none, and has the same hash; two References are equal if
    and only if prefix and identifier match, whatever their names. *)
Theorem Reference_equality_ignores_name (hash_tuple : str * str → Z)
    (p i : str) (n1 n2 : option str) :
  p ≠ [] → i ≠ [] →
  (∃ r1 r2,
     Reference.new p i n1 = Ok r1 ∧ Reference.new p i n2 = Ok r2
     ∧ Reference.name r1 = n1 ∧ Reference.name r2 = n2
     ∧ Reference.eqb r1 r2 = true
     ∧ Reference.hash hash_tuple r1 = Reference.hash hash_tuple r2)
  ∧ (∀ r1 r2 : Reference.t,
       Reference.eqb r1 r2 = true
       ↔ Reference.prefix r1 = Reference.prefix r2
         ∧ Reference.identifier r1 = Reference.identifier r2)
  ∧ (∀ r1 r2 : Reference.t,
       Reference.eqb r1 r2 = true →
       Reference.hash hash_tuple r1 = Reference.hash hash_tuple r2).
Proof.
  intros Hp Hi. split_and!.
  - exists (Reference.mk p i n1), (Reference.mk p i n2).
    rewrite !Reference_new_ok by assumption.
    split_and!; try reflexivity. by apply Reference_eqb_spec.
  - apply Reference_eqb_spec.
  - intros r1 r2 [Hpre Hid]%Reference_eqb_spec.
    unfold Reference.hash. by rewrite Hpre, Hid.
Qed.

Lemma Reference_equality_ignores_name_witness :
  silva_PREFIX ≠ [] ∧ lit "3" ≠ []
  ∧ ∃ r1 r2,
      Reference.new silva_PREFIX (lit "3") (Some (lit "Bacteria")) = Ok r1
      ∧ Reference.new silva_PREFIX (lit "3") None = Ok r2
      ∧ Reference.name r1 = Some (lit "Bacteria") ∧ Reference.name r2 = None
      ∧ Reference.eqb r1 r2 = true
      ∧ Reference.hash Sample.hash_tuple r1 = Reference.hash Sample.hash_tuple r2.
Proof.
  assert (Hp : silva_PREFIX ≠ []) by discriminate.
  assert (Hi : lit "3" ≠ []) by discriminate.
  split_and!; [exact Hp | exact Hi |].
  exact (proj1 (Reference_equality_ignores_name Sample.hash_tuple silva_PREFIX
                  (lit "3") (Some (lit "Bacteria")) None Hp Hi)).
Defined.

(** ** The extractors under the directionality check *)

(** silva.py hands the metadata tag [HAS_TAXONOMIC_CLASSIFICATION] to
    [annotate_object]: with the check of C1 the call raises, for every row
    of the taxmap file that reaches it. *)
Lemma silva_taxmap_term_raises (default_reference : str → str → option str → Reference.t)
    (accession organism species_taxon_id : str) :
  accession ≠ [] → species_taxon_id ≠ [] →
  silva_taxmap_term default_reference accession organism species_taxon_id
  = Raise InvalidTypeDef.
Proof.
  intros Ha Hs. unfold silva_taxmap_term.
  rewrite Reference_new_ok by (assumption || discriminate). simpl.
  rewrite Reference_new_ok by (assumption || discriminate). reflexivity.
Qed.

(** msigdb.py hands typedefs built by [TypeDef.default], which are not
    metadata tags, to [annotate_literal]: with the check of C1 the first
    property with a value raises. *)
Lemma msigdb_annotate_properties_raises
    (default_reference : str → str → option str → Reference.t)
    (term : Term.t) (typedef : TypeDef.t) (value : str)
    (rest : list (TypeDef.t * str)) :
  typedef ∈ PROPERTIES default_reference → value ≠ [] →
  annotate_properties term ((typedef, value) :: rest) = Raise InvalidTypeDef.
Proof.
  intros Hin Hv. simpl. rewrite decide_False by assumption.
  assert (Hflag : TypeDef.is_metadata_tag typedef = false).
  { unfold PROPERTIES in Hin.
    repeat (apply elem_of_cons in Hin as [->|Hin]; [reflexivity|]).
    by apply elem_of_nil in Hin. }
  unfold Term.annotate_literal. by rewrite Hflag.
Qed.

Lemma annotate_directionality_witness :
  Term.annotate_object Sample.accession
    (HAS_TAXONOMIC_CLASSIFICATION Sample.default_reference) Sample.taxon
  = Raise InvalidTypeDef
  ∧ Term.annotate_literal Sample.gene_set
      (CONTRIBUTOR Sample.default_reference) (lit "x")
    = Raise InvalidTypeDef.
Proof.
  destruct annotate_directionality as (Hobject & Hliteral & _).
  split.
  - apply Hobject. reflexivity.
  - apply Hliteral. reflexivity.
Defined.

(** * More of the code: properties read off the sources *)

(** ** The Python primitives *)

Lemma outcome_bind_Return {A B} (m : outcome A) (k : A → outcome B) (b : B) :
  m ≫= k = Return b ↔ ∃ a, m = Return a ∧ k a = Return b.
Proof.
  destruct m as [a|e]; simpl; split.
  - intros H. by exists a.
  - by intros (a' & [= <-] & H).
  - discriminate.
  - by intros (a' & [=] & _).
Qed.

Lemma lstrip_blank (s : str) : lstrip s = [] ↔ Forall (λ c, isspace c = true) s.
Proof.
  induction s as [|c s IH]; simpl.
  - split; [constructor | reflexivity].
  - destruct (isspace c) eqn:Hc.
    + rewrite IH. split; [by constructor | by inversion 1].
    + split; [discriminate | inversion 1; congruence].
Qed.

Lemma lstrip_head (s : str) (c : character) (r : str) :
  lstrip s = c :: r → isspace c = false.
Proof.
  induction s as [|d s IH]; simpl; [discriminate|].
  destruct (isspace d) eqn:Hd; [assumption|]. by intros [= <- _].
Qed.

Lemma lstrip_decompose (s : str) :
  ∃ ws, s = ws ++ lstrip s ∧ Forall (λ c, isspace c = true) ws.
Proof.
  induction s as [|c s (ws & Hs & Hws)]; simpl.
  - by exists [].
  - destruct (isspace c) eqn:Hc.
    + exists (c :: ws). split; [simpl; f_equal; exact Hs | by constructor].
    + by exists [].
Qed.

Lemma lstrip_fixed (c : character) (s : str) :
  isspace c = false → lstrip (c :: s) = c :: s.
Proof. intros H. simpl. by rewrite H. Qed.

Lemma lstrip_app_fixed (s : str) (c : character) :
  isspace c = false → lstrip (s ++ [c]) = lstrip s ++ [c].
Proof.
  intros Hc. induction s as [|d s IH]; simpl.
  - by rewrite Hc.
  - destruct (isspace d); [exact IH | reflexivity].
Qed.

Lemma rstrip_blank (s : str) : rstrip s = [] ↔ Forall (λ c, isspace c = true) s.
Proof.
  unfold rstrip. split.
  - intros H. apply (f_equal reverse) in H.
    rewrite reverse_involutive, reverse_nil in H.
    apply lstrip_blank in H. by apply Forall_reverse.
  - intros H. apply Forall_reverse, lstrip_blank in H. by rewrite H.
Qed.

Lemma rstrip_decompose (s : str) :
  ∃ ws, s = rstrip s ++ ws ∧ Forall (λ c, isspace c = true) ws.
Proof.
  destruct (lstrip_decompose (reverse s)) as (ws & Hs & Hws).
  exists (reverse ws). split.
  - unfold rstrip. rewrite <- reverse_app, <- Hs. by rewrite reverse_involutive.
  - by apply Forall_reverse.
Qed.

Lemma rstrip_last (s r : str) (c : character) :
  rstrip s = r ++ [c] → isspace c = false.
Proof.
  unfold rstrip. intros H. apply (f_equal reverse) in H.
  rewrite reverse_involutive, reverse_app in H. simpl in H.
  by apply lstrip_head in H.
Qed.

Lemma rstrip_snoc_fixed (s : str) (c : character) :
  isspace c = false → rstrip (s ++ [c]) = s ++ [c].
Proof.
  intros Hc. unfold rstrip. rewrite reverse_snoc. simpl.
  rewrite Hc. by rewrite reverse_cons, reverse_involutive.
Qed.

Lemma rstrip_cons_fixed (c : character) (s : str) :
  isspace c = false → rstrip (c :: s) = c :: rstrip s.
Proof.
  intros Hc. unfold rstrip. rewrite reverse_cons, lstrip_app_fixed by assumption.
  by rewrite reverse_app.
Qed.

Lemma strip_blank (s : str) : strip s = [] ↔ Forall (λ c, isspace c = true) s.
Proof.
  unfold strip. rewrite rstrip_blank. split.
  - intros H. destruct (lstrip_decompose s) as (ws & Hs & Hws).
    rewrite Hs. by apply Forall_app.
  - intros H. destruct (lstrip_decompose s) as (ws & Hs & Hws).
    rewrite Hs in H. by apply Forall_app in H as [_ H].
Qed.

Lemma strip_decompose (s : str) :
  ∃ ws1 ws2, s = ws1 ++ strip s ++ ws2
             ∧ Forall (λ c, isspace c = true) ws1
             ∧ Forall (λ c, isspace c = true) ws2.
Proof.
  destruct (lstrip_decompose s) as (ws1 & Hs & Hws1).
  destruct (rstrip_decompose (lstrip s)) as (ws2 & Hl & Hws2).
  exists ws1, ws2. split_and!; [|assumption..].
  unfold strip. by rewrite <- Hl.
Qed.

Lemma strip_trimmed (s : str) : trimmed (strip s).
Proof.
  split.
  - intros c s' H. unfold strip in H.
    destruct (lstrip s) as [|d l] eqn:Hl.
    + by rewrite (proj2 (rstrip_blank [])) in H by constructor.
    + pose proof (lstrip_head _ _ _ Hl) as Hd.
      rewrite rstrip_cons_fixed in H by assumption. congruence.
  - intros c s' H. by apply rstrip_last in H.
Qed.

Lemma strip_fixed (s : str) : trimmed s → strip s = s.
Proof.
  intros [Hhead Hlast]. unfold strip.
  destruct s as [|c s]; [reflexivity|].
  rewrite lstrip_fixed by (by eapply Hhead).
  destruct (exists_last (l := c :: s)) as (s' & d & Hs); [discriminate|].
  rewrite Hs. apply rstrip_snoc_fixed. by eapply Hlast.
Qed.

Lemma strip_idemp (s : str) : strip (strip s) = strip s.
Proof. apply strip_fixed, strip_trimmed. Qed.

Lemma strip_elem (s : str) (c : character) : c ∈ strip s → c ∈ s.
Proof.
  intros H. destruct (strip_decompose s) as (ws1 & ws2 & Hs & _).
  rewrite Hs, !elem_of_app. tauto.
Qed.

Lemma strip_length (s : str) : (length (strip s) ≤ length s)%nat.
Proof.
  destruct (strip_decompose s) as (ws1 & ws2 & Hs & _).
  rewrite Hs at 2. rewrite !length_app. lia.
Qed.

Lemma startswith_cons_ne (c a : character) (s old : str) :
  c ≠ a → startswith (c :: s) (a :: old) = false.
Proof. intros H. simpl. by destruct (N.eqb_spec a c); [congruence|]. Qed.

Lemma replace_from_absent (a : character) (old new s : str) :
  a ∉ s → replace_from (a :: old) new 0 s = s.
Proof.
  induction s as [|c s IH]; [reflexivity|].
  intros [Hc Hs]%not_elem_of_cons.
  cbn [replace_from]. rewrite startswith_cons_ne by congruence.
  by rewrite IH.
Qed.

Lemma replace_absent (a : character) (old new s : str) :
  a ∉ s → replace s (a :: old) new = s.
Proof. apply replace_from_absent. Qed.

Lemma replace_from_removal_elem (old : str) (skip : nat) (s : str) (x : character) :
  x ∈ replace_from old [] skip s → x ∈ s.
Proof.
  revert skip. induction s as [|c s IH]; intros skip; [done|].
  cbn [replace_from]. destruct skip as [|k].
  - destruct (startswith (c :: s) old).
    + rewrite app_nil_l. intros H%IH. by right.
    + intros [->|H%IH]%elem_of_cons; [by left | by right].
  - intros H%IH. by right.
Qed.

Lemma replace_from_removal_length (old : str) (skip : nat) (s : str) :
  (length (replace_from old [] skip s) ≤ length s)%nat.
Proof.
  revert skip. induction s as [|c s IH]; intros skip; [done|].
  cbn [replace_from]. destruct skip as [|k].
  - destruct (startswith (c :: s) old).
    + rewrite app_nil_l. specialize (IH (pred (length old))). simpl. lia.
    + specialize (IH 0%nat). simpl. lia.
  - specialize (IH k). simpl. lia.
Qed.

Lemma join_cons (sep p : str) (ps : list str) :
  ps ≠ [] → join sep (p :: ps) = p ++ sep ++ join sep ps.
Proof. by destruct ps. Qed.

Lemma join_snoc (sep : str) (ps : list str) (p : str) :
  ps ≠ [] → join sep (ps ++ [p]) = join sep ps ++ sep ++ p.
Proof.
  induction ps as [|q ps IH]; [done|]. intros _.
  destruct ps as [|r ps]; [reflexivity|].
  change ((q :: r :: ps) ++ [p]) with (q :: ((r :: ps) ++ [p])).
  rewrite join_cons by (by destruct ps).
  rewrite IH by done. rewrite (join_cons sep q) by done.
  by rewrite <- !app_assoc.
Qed.

Lemma split_from_single_cons_ne (c d : character) (cur s : str) :
  d ≠ c →
  split_from [c] 0 cur (d :: s) = split_from [c] 0 (cur ++ [d]) s.
Proof.
  intros H. cbn [split_from]. by rewrite startswith_cons_ne.
Qed.

Lemma split_from_single_cons_eq (c : character) (cur s : str) :
  split_from [c] 0 cur (c :: s) = cur :: split_from [c] 0 [] s.
Proof.
  cbn [split_from startswith]. rewrite N.eqb_refl. simpl.
  by destruct s.
Qed.

Lemma split_from_single_app (c : character) (cur p rest : str) :
  c ∉ p →
  split_from [c] 0 cur (p ++ c :: rest)
  = (cur ++ p) :: split_from [c] 0 [] rest.
Proof.
  revert cur. induction p as [|d p IH]; intros cur Hp.
  - rewrite app_nil_r. apply split_from_single_cons_eq.
  - apply not_elem_of_cons in Hp as [Hd Hp].
    change ((d :: p) ++ c :: rest) with (d :: (p ++ c :: rest)).
    rewrite split_from_single_cons_ne by congruence.
    rewrite IH by assumption. by rewrite <- app_assoc.
Qed.

Lemma split_from_single_last (c : character) (cur p : str) :
  c ∉ p → split_from [c] 0 cur p = [cur ++ p].
Proof.
  revert cur. induction p as [|d p IH]; intros cur Hp.
  - by rewrite app_nil_r.
  - apply not_elem_of_cons in Hp as [Hd Hp].
    rewrite split_from_single_cons_ne by congruence.
    rewrite IH by assumption. by rewrite <- app_assoc.
Qed.

Lemma split_from_single_no_sep (c : character) (cur s : str) :
  c ∉ cur → Forall (λ p, c ∉ p) (split_from [c] 0 cur s).
Proof.
  revert cur. induction s as [|d s IH]; intros cur Hcur.
  - by constructor.
  - destruct (decide (d = c)) as [->|Hd].
    + rewrite split_from_single_cons_eq. constructor; [assumption|].
      apply IH, not_elem_of_nil.
    + rewrite split_from_single_cons_ne by assumption. apply IH.
      rewrite elem_of_app, list_elem_of_singleton. intros [?|?]; congruence.
Qed.

Lemma split_from_nonempty (sep : str) (skip : nat) (cur s : str) :
  split_from sep skip cur s ≠ [].
Proof.
  revert skip cur. induction s as [|d s IH]; intros skip cur; [done|].
  cbn [split_from]. destruct skip; [|apply IH].
  destruct (startswith _ _); [done | apply IH].
Qed.

Lemma join_split_from_single (c : character) (cur s : str) :
  join [c] (split_from [c] 0 cur s) = cur ++ s.
Proof.
  revert cur. induction s as [|d s IH]; intros cur.
  - by rewrite app_nil_r.
  - destruct (decide (d = c)) as [->|Hd].
    + rewrite split_from_single_cons_eq.
      rewrite join_cons by apply split_from_nonempty. by rewrite IH.
    + rewrite split_from_single_cons_ne by assumption.
      by rewrite IH, <- app_assoc.
Qed.




Lemma slice_init {A} (l : list A) (x : A) :
  slice (l ++ [x]) None (Some (-1)%Z) = l.
Proof.
  unfold slice. simpl. rewrite drop_0.
  replace (slice_bound (length (l ++ [x])) (-1)) with (length l).
  - rewrite Nat.sub_0_r. by rewrite take_app_length.
  - unfold slice_bound. rewrite length_app. simpl. lia.
Qed.

(** ** pyobo/struct/utils.py, further properties *)

Lemma obo_escape_inj (s1 s2 : str) : obo_escape s1 = obo_escape s2 → s1 = s2.
Proof.
  intros H. rewrite <- (obo_unescape_escape s1), <- (obo_unescape_escape s2).
  by rewrite H.
Qed.

Lemma obo_escape_slim_inj (s1 s2 : str) :
  obo_escape_slim s1 = obo_escape_slim s2 → s1 = s2.
Proof.
  intros H. rewrite <- (obo_unescape_slim_escape_slim s1),
    <- (obo_unescape_slim_escape_slim s2).
  by rewrite H.
Qed.

Lemma full_substitution_length_exact (c : character) :
  length (full_substitution c)
  = if decide (c ∈ escaped_characters ∨ c = space) then 2%nat else 1%nat.
Proof.
  unfold full_substitution.
  destruct (decide (c ∈ escaped_characters)) as [Hin|Hnin];
    [|destruct (decide (c = space)) as [Hsp|Hsp]].
  - by rewrite decide_True by (by left).
  - by rewrite decide_True by (by right).
  - by rewrite decide_False by tauto.
Qed.

Lemma slim_substitution_length_exact (c : character) :
  length (slim_substitution c)
  = if decide (c ∈ escaped_characters ∨ c = newline) then 2%nat else 1%nat.
Proof.
  unfold slim_substitution.
  destruct (decide (c ∈ escaped_characters)) as [Hin|Hnin];
    [|destruct (decide (c = newline)) as [Hnl|Hnl]].
  - by rewrite decide_True by (by left).
  - by rewrite decide_True by (by right).
  - by rewrite decide_False by tauto.
Qed.

Lemma concat_substitution_length (P : character → Prop) `{∀ c, Decision (P c)}
    (f : character → str) (s : str) :
  (∀ c, length (f c) = if decide (P c) then 2%nat else 1%nat) →
  length (concat (f <$> s)) = (length s + length (filter P s))%nat.
Proof.
  intros Hf. induction s as [|c s IH]; [reflexivity|].
  rewrite fmap_cons, concat_cons, length_app, IH, Hf.
  destruct (decide (P c)) as [Hc|Hc].
  - rewrite filter_cons_True by assumption. simpl. lia.
  - rewrite filter_cons_False by assumption. simpl. lia.
Qed.

(** X1: the exact length of the output. Each character of the table and
    each space adds one character under [obo_escape]; each character of
    the table and each newline adds one under [obo_escape_slim]. *)
Theorem escape_length_exact (s : str) :
  len (obo_escape s)
  = (len s + length (filter (λ c, c ∈ escaped_characters ∨ c = space) s))%nat
  ∧ len (obo_escape_slim s)
    = (len s + length (filter (λ c, c ∈ escaped_characters ∨ c = newline) s))%nat.
Proof.
  unfold len. split.
  - rewrite obo_escape_concat. apply concat_substitution_length.
    apply full_substitution_length_exact.
  - rewrite obo_escape_slim_concat. apply concat_substitution_length.
    apply slim_substitution_length_exact.
Qed.

Lemma filter_nil_Forall {A} (P : A → Prop) `{∀ x, Decision (P x)} (l : list A) :
  length (filter P l) = 0%nat ↔ Forall (λ x, ¬ P x) l.
Proof.
  induction l as [|x l IH]; [by split; [constructor|]|].
  destruct (decide (P x)) as [Hx|Hx].
  - rewrite filter_cons_True by assumption. split; [discriminate|].
    by inversion 1.
  - rewrite filter_cons_False by assumption. rewrite IH.
    split; [by constructor | by inversion 1].
Qed.

(** X2: the fixed points. [obo_escape] returns its input unchanged exactly
    when the input has no character of the table and no space;
    [obo_escape_slim] exactly when it has no character of the table and
    no newline. *)
Theorem escape_fixed_points (s : str) :
  (obo_escape s = s
   ↔ Forall (λ c, ¬ (c ∈ escaped_characters ∨ c = space)) s)
  ∧ (obo_escape_slim s = s
     ↔ Forall (λ c, ¬ (c ∈ escaped_characters ∨ c = newline)) s).
Proof.
  split; (split; [|by (apply obo_escape_fixed || apply obo_escape_slim_fixed)]).
  - intros H.
    apply (filter_nil_Forall (λ c, c ∈ escaped_characters ∨ c = space)).
    pose proof (concat_substitution_length
                  (λ c, c ∈ escaped_characters ∨ c = space) _ s
                  full_substitution_length_exact) as Hlen.
    rewrite <- obo_escape_concat, H in Hlen. lia.
  - intros H.
    apply (filter_nil_Forall (λ c, c ∈ escaped_characters ∨ c = newline)).
    pose proof (concat_substitution_length
                  (λ c, c ∈ escaped_characters ∨ c = newline) _ s
                  slim_substitution_length_exact) as Hlen.
    rewrite <- obo_escape_slim_concat, H in Hlen. lia.
Qed.

(** X3: escaping twice gives the same as escaping once only for the
    strings that escaping leaves unchanged; on every other input the second
    pass escapes the backslashes of the first. *)
Theorem escape_idempotent_iff_fixed (s : str) :
  (obo_escape (obo_escape s) = obo_escape s ↔ obo_escape s = s)
  ∧ (obo_escape_slim (obo_escape_slim s) = obo_escape_slim s
     ↔ obo_escape_slim s = s).
Proof.
  split; split.
  - apply obo_escape_inj.
  - intros H. by rewrite !H.
  - apply obo_escape_slim_inj.
  - intros H. by rewrite !H.
Qed.

Lemma space_not_in_full_substitution (c : character) :
  space ∉ full_substitution c.
Proof.
  unfold full_substitution.
  destruct (decide (c ∈ escaped_characters)) as [Hin|Hnin];
    [|destruct (decide (c = space)) as [->|Hsp]].
  - character_facts. intros [?|[?|[]%elem_of_nil]%elem_of_cons]%elem_of_cons;
      [discriminate | congruence].
  - intros [?|[?|[]%elem_of_nil]%elem_of_cons]%elem_of_cons; discriminate.
  - intros [?|[]%elem_of_nil]%elem_of_cons. congruence.
Qed.

(** X4: the output of [obo_escape] never contains a space, whatever the
    input. *)
Theorem obo_escape_no_space (s : str) : space ∉ obo_escape s.
Proof.
  rewrite obo_escape_concat.
  induction s as [|c s IH]; [apply not_elem_of_nil|].
  rewrite fmap_cons, concat_cons, elem_of_app.
  intros [H|H]; [exact (space_not_in_full_substitution c H) | exact (IH H)].
Qed.

Lemma substitutions_agree (c : character) :
  c ≠ space → c ≠ newline → full_substitution c = slim_substitution c.
Proof.
  intros Hsp Hnl. unfold full_substitution, slim_substitution.
  destruct (decide (c ∈ escaped_characters)); [reflexivity|].
  by rewrite !decide_False by assumption.
Qed.

(** X5: the two functions give the same output exactly on the strings
    that contain neither a space nor a newline. *)
Theorem escape_functions_agree_iff (s : str) :
  obo_escape s = obo_escape_slim s ↔ (space ∉ s) ∧ (newline ∉ s).
Proof.
  rewrite obo_escape_concat, obo_escape_slim_concat.
  induction s as [|c s IH].
  - split; [intros _; split; apply not_elem_of_nil | reflexivity].
  - rewrite !fmap_cons, !concat_cons, !not_elem_of_cons.
    destruct (decide (c = space)) as [->|Hsp];
      [|destruct (decide (c = newline)) as [->|Hnl]].
    + split; [discriminate | tauto].
    + split; [discriminate | tauto].
    + rewrite (substitutions_agree c) by assumption. split.
      * intros H%app_inv_head. apply IH in H.
        split; (split; [congruence | tauto]).
      * intros [[_ H1] [_ H2]]. f_equal. apply IH. tauto.
Qed.

(** ** pyobo/sources/msigdb.py *)

Lemma replace_removal_length (a : character) (old s : str) :
  (length (replace s (a :: old) []) ≤ length s)%nat.
Proof. apply replace_from_removal_length. Qed.

Lemma replace_removal_elem (a : character) (old s : str) (x : character) :
  x ∈ replace s (a :: old) [] → x ∈ s.
Proof. apply replace_from_removal_elem. Qed.

Lemma getitem_Some {V} (d : gmap (list N) V) (k : str) (v : V) :
  d !! k = Some v → getitem d k = Return v.
Proof. intros H. unfold getitem. by rewrite H. Qed.

Lemma getitem_None {V} (d : gmap (list N) V) (k : str) :
  d !! k = None → getitem d k = Throw (KeyError k).
Proof. intros H. unfold getitem. by rewrite H. Qed.

(** The function by cases on the two keys. *)
Lemma get_definition_cases (attrib : gmap (list N) str) :
  _get_definition attrib
  = match attrib !! lit "DESCRIPTION_FULL" with
    | None => Throw (KeyError (lit "DESCRIPTION_FULL"))
    | Some full =>
        if decide (strip full = []) then
          match attrib !! lit "DESCRIPTION_BRIEF" with
          | None => Throw (KeyError (lit "DESCRIPTION_BRIEF"))
          | Some brief =>
              if decide (strip brief = []) then Return None
              else Return (Some (replace (replace (strip brief) (lit "\d") [])
                                   (lit "\s") []))
          end
        else Return (Some (replace (replace (strip full) (lit "\d") [])
                             (lit "\s") []))
    end.
Proof.
  unfold _get_definition, getitem.
  destruct (attrib !! lit "DESCRIPTION_FULL") as [full|]; [|reflexivity].
  simpl. destruct (decide (strip full = [])); [|reflexivity].
  destruct (attrib !! lit "DESCRIPTION_BRIEF") as [brief|]; [|reflexivity].
  simpl. destruct (decide (strip brief = [])); reflexivity.
Qed.

(** X6: [_get_definition] returns None exactly when both descriptions are
    present and blank (empty or whitespace only). *)
Theorem get_definition_none_iff (attrib : gmap (list N) str) :
  _get_definition attrib = Return None
  ↔ ∃ full brief,
      attrib !! lit "DESCRIPTION_FULL" = Some full
      ∧ attrib !! lit "DESCRIPTION_BRIEF" = Some brief
      ∧ Forall (λ c, isspace c = true) full
      ∧ Forall (λ c, isspace c = true) brief.
Proof.
  rewrite get_definition_cases. split.
  - destruct (attrib !! lit "DESCRIPTION_FULL") as [full|]; [|discriminate].
    destruct (decide (strip full = [])) as [Hfull|]; [|discriminate].
    destruct (attrib !! lit "DESCRIPTION_BRIEF") as [brief|]; [|discriminate].
    destruct (decide (strip brief = [])) as [Hbrief|]; [|discriminate].
    intros _. exists full, brief. by rewrite <- !strip_blank.
  - intros (full & brief & -> & -> & Hfull%strip_blank & Hbrief%strip_blank).
    by rewrite !decide_True by assumption.
Qed.

(** X7: the only errors of [_get_definition] are the KeyError of a missing
    full description, and the KeyError of a missing brief description when
    the full one is blank; the brief description is not read otherwise. *)
Theorem get_definition_raises_iff (attrib : gmap (list N) str)
    (e : builtin_exception) :
  _get_definition attrib = Throw e
  ↔ (attrib !! lit "DESCRIPTION_FULL" = None
     ∧ e = KeyError (lit "DESCRIPTION_FULL"))
    ∨ (∃ full,
         attrib !! lit "DESCRIPTION_FULL" = Some full
         ∧ Forall (λ c, isspace c = true) full
         ∧ attrib !! lit "DESCRIPTION_BRIEF" = None
         ∧ e = KeyError (lit "DESCRIPTION_BRIEF")).
Proof.
  rewrite get_definition_cases. split.
  - destruct (attrib !! lit "DESCRIPTION_FULL") as [full|].
    + destruct (decide (strip full = [])) as [Hfull|]; [|discriminate].
      destruct (attrib !! lit "DESCRIPTION_BRIEF") as [brief|].
      * destruct (decide (strip brief = [])); discriminate.
      * intros [= <-]. right. exists full. by rewrite <- strip_blank.
    + intros [= <-]. by left.
  - intros [[-> ->]|(full & -> & Hfull%strip_blank & -> & ->)];
      [reflexivity|].
    by rewrite decide_True by assumption.
Qed.

(** X8: a full description that is not blank decides the result alone:
    the result is a text, and it is the same whatever the brief
    description is, present or not. *)
Theorem get_definition_prefers_full (attrib attrib' : gmap (list N) str)
    (full : str) :
  attrib !! lit "DESCRIPTION_FULL" = Some full →
  attrib' !! lit "DESCRIPTION_FULL" = Some full →
  ¬ Forall (λ c, isspace c = true) full →
  _get_definition attrib = _get_definition attrib'
  ∧ ∃ d, _get_definition attrib = Return (Some d).
Proof.
  intros H H' Hfull. rewrite <- strip_blank in Hfull.
  rewrite !get_definition_cases, H, H'.
  destruct (decide (strip full = [])) as [?|_]; [contradiction|].
  split; [reflexivity | by eexists].
Qed.

Lemma get_definition_prefers_full_witness :
  Data.go_gene_set !! lit "DESCRIPTION_BRIEF" = None
  ∧ _get_definition Data.go_gene_set
    = _get_definition (<[lit "DESCRIPTION_BRIEF" := lit "brief"]> Data.go_gene_set)
  ∧ ∃ d, _get_definition Data.go_gene_set = Return (Some d).
Proof.
  split; [reflexivity|].
  apply (get_definition_prefers_full Data.go_gene_set
           (<[lit "DESCRIPTION_BRIEF" := lit "brief"]> Data.go_gene_set)
           (lit " Genes annotated \d to the cytosol ")).
  - reflexivity.
  - reflexivity.
  - intros H. by apply Forall_inv_tail, Forall_inv in H.
Defined.

(** X9: a text returned by [_get_definition] is made of characters of the
    description it comes from and is no longer than that description
    stripped; a description without backslash is returned stripped and
    otherwise unchanged. *)
Theorem get_definition_text (attrib : gmap (list N) str) (d : str) :
  _get_definition attrib = Return (Some d) →
  ∃ text,
    (attrib !! lit "DESCRIPTION_FULL" = Some text
     ∨ attrib !! lit "DESCRIPTION_BRIEF" = Some text)
    ∧ (len d ≤ len (strip text))%nat
    ∧ (∀ c, c ∈ d → c ∈ text)
    ∧ (backslash ∉ text → d = strip text ∧ d ≠ []).
Proof.
  assert (Hclean : ∀ text,
    strip text ≠ [] →
    let d := replace (replace (strip text) (lit "\d") []) (lit "\s") [] in
    (len d ≤ len (strip text))%nat
    ∧ (∀ c, c ∈ d → c ∈ text)
    ∧ (backslash ∉ text → d = strip text ∧ d ≠ [])).
  { intros text Hne d0. subst d0. split_and!.
    - unfold len.
      etrans; [apply (replace_removal_length backslash (lit "s"))|].
      apply (replace_removal_length backslash (lit "d")).
    - intros c Hc. apply strip_elem.
      apply (replace_removal_elem backslash (lit "d")).
      by apply (replace_removal_elem backslash (lit "s")).
    - intros Hbs.
      assert (Hbs' : backslash ∉ strip text) by (intros H; by apply Hbs, strip_elem).
      rewrite (replace_absent backslash (lit "d")) by assumption.
      by rewrite (replace_absent backslash (lit "s")) by assumption. }
  rewrite get_definition_cases.
  destruct (attrib !! lit "DESCRIPTION_FULL") as [full|] eqn:Hfull;
    [|discriminate].
  destruct (decide (strip full = [])) as [Hblank|Hne].
  - destruct (attrib !! lit "DESCRIPTION_BRIEF") as [brief|] eqn:Hbrief;
      [|discriminate].
    destruct (decide (strip brief = [])) as [|Hne]; [discriminate|].
    intros [= <-]. exists brief. split; [by right|]. by apply Hclean.
  - intros [= <-]. exists full. split; [by left|]. by apply Hclean.
Qed.






(** X13: the Reference put in the provenance has the PMID field stripped
    as its identifier, which is neither empty nor padded with whitespace;
    its prefix is gse when the identifier starts with GSE and pubmed
    otherwise; a blank field gives no provenance. *)
Theorem msigdb_provenance_reference (attrib : gmap (list N) str) (pmid : str) :
  attrib !! lit "PMID" = Some pmid →
  (msigdb_provenance attrib = Return None
   ↔ Forall (λ c, isspace c = true) pmid)
  ∧ (∀ prefix identifier,
       msigdb_provenance attrib = Return (Some (prefix, identifier)) →
       identifier = strip pmid ∧ identifier ≠ [] ∧ trimmed identifier
       ∧ (prefix = lit "gse" ∧ startswith identifier (lit "GSE") = true
          ∨ prefix = lit "pubmed" ∧ startswith identifier (lit "GSE") = false)).
Proof.
  intros Hp. unfold msigdb_provenance. rewrite (getitem_Some _ _ _ Hp).
  cbn [mbind outcome_bind mret outcome_ret]. rewrite <- strip_blank.
  destruct (decide (strip pmid = [])) as [Hblank|Hne].
  - split; [done | discriminate].
  - split.
    + split; [|contradiction].
      destruct (startswith (strip pmid) (lit "GSE")); discriminate.
    + intros prefix identifier.
      destruct (startswith (strip pmid) (lit "GSE")) eqn:Hgse;
        intros [= <- <-]; (split_and!; [reflexivity | assumption
                                       | apply strip_trimmed |]);
        [left | right]; by rewrite Hgse.
Qed.

(** X25: the taxonomy identifier of a gene set is found exactly for the
    five organism names of [_SPECIES], compared as they are; any other
    organism raises a KeyError that carries its name, and a gene set
    without ORGANISM raises the KeyError of that key. *)
Theorem msigdb_tax_id_cases (attrib : gmap (list N) str) :
  match attrib !! lit "ORGANISM" with
  | None => msigdb_tax_id attrib = Throw (KeyError (lit "ORGANISM"))
  | Some organism =>
      if decide (organism ∈ [lit "Homo sapiens"; lit "Mus musculus";
                             lit "Rattus norvegicus"; lit "Macaca mulatta";
                             lit "Danio rerio"])
      then ∃ tax_id, msigdb_tax_id attrib = Return tax_id ∧ tax_id ≠ []
      else msigdb_tax_id attrib = Throw (KeyError organism)
  end.
Proof.
  unfold msigdb_tax_id, getitem.
  destruct (attrib !! lit "ORGANISM") as [organism|]; [|reflexivity].
  cbn [mbind outcome_bind].
  destruct (decide (organism ∈ _)) as [Hin|Hnot].
  - repeat (apply elem_of_cons in Hin as [->|Hin];
              [eexists; split; [vm_compute; reflexivity | discriminate]|]).
    by apply elem_of_nil in Hin.
  - destruct (msigdb_SPECIES !! organism) as [tax_id|] eqn:Hlook;
      [|reflexivity].
    destruct Hnot. unfold msigdb_SPECIES in Hlook.
    apply elem_of_list_to_map_2, list_elem_of_fmap_2' with (f := fst)
      (y := organism) in Hlook; [exact Hlook | reflexivity].
Qed.

Lemma filter_all {A} (P : A → Prop) `{∀ x, Decision (P x)} (l : list A) :
  Forall P l → filter P l = l.
Proof.
  induction 1 as [|x l Hx _ IH]; [reflexivity|].
  by rewrite filter_cons_True, IH.
Qed.

Lemma split_from_join (c : character) (ps : list str) :
  ps ≠ [] → Forall (λ p, c ∉ p) ps →
  split_from [c] 0 [] (join [c] ps) = ps.
Proof.
  induction ps as [|p ps IH]; [done|]. intros _ Hps.
  apply Forall_cons in Hps as [Hp Hps].
  destruct ps as [|q ps].
  - simpl. by rewrite split_from_single_last.
  - rewrite join_cons by done.
    change ([c] ++ join [c] (q :: ps)) with (c :: join [c] (q :: ps)).
    rewrite split_from_single_app by assumption.
    by rewrite IH.
Qed.

Lemma split_from_join_sep (c : character) (ps : list str) :
  ps ≠ [] → Forall (λ p, c ∉ p) ps →
  split_from [c] 0 [] (join [c] ps ++ [c]) = ps ++ [[]].
Proof.
  intros Hne Hps.
  replace (join [c] ps ++ [c]) with (join [c] (ps ++ [[]])).
  - rewrite split_from_join; [reflexivity| |].
    + by destruct ps.
    + apply Forall_app. split; [assumption|].
      constructor; [apply not_elem_of_nil | constructor].
  - rewrite join_snoc by assumption. by rewrite app_nil_r.
Qed.

Lemma elem_of_join (sep : str) (ps : list str) (p : str) (x : character) :
  p ∈ ps → x ∈ p → x ∈ join sep ps.
Proof.
  induction ps as [|q ps IH]; [by intros ?%elem_of_nil|].
  intros Hp Hx. destruct ps as [|r ps].
  - apply list_elem_of_singleton in Hp as ->. exact Hx.
  - rewrite join_cons by done. rewrite !elem_of_app.
    apply elem_of_cons in Hp as [->|Hp]; [by left|].
    right. right. by apply IH.
Qed.

Lemma split_from_single_elem (c : character) (s p : str) (x : character) :
  p ∈ split_from [c] 0 [] s → x ∈ p → x ∈ s.
Proof.
  intros Hp Hx.
  rewrite <- (app_nil_l s), <- (join_split_from_single c [] s).
  by eapply elem_of_join.
Qed.

(** X14: the gene identifiers taken from MEMBERS_EZID are never empty and
    never contain a comma, and are made of characters of the field. *)
Theorem msigdb_members_identifiers (attrib : gmap (list N) str) (field : str) :
  attrib !! lit "MEMBERS_EZID" = Some field →
  ∃ ids,
    msigdb_members attrib = Return ids
    ∧ Forall (λ i, i ≠ [] ∧ (comma ∉ i) ∧ ∀ c, c ∈ i → c ∈ field) ids.
Proof.
  intros Hf. unfold msigdb_members. rewrite (getitem_Some _ _ _ Hf).
  eexists. split; [reflexivity|].
  apply Forall_forall. intros i [Hne Hi]%list_elem_of_filter.
  split_and!; [assumption| |].
  - pose proof (split_from_single_no_sep comma [] (strip field)
                  (not_elem_of_nil _)) as Hall.
    rewrite Forall_forall in Hall. by apply Hall.
  - intros c Hc. apply strip_elem.
    by apply (split_from_single_elem comma _ i).
Qed.

(** X15: a MEMBERS_EZID field that lists non-empty, comma-free identifiers
    separated by commas, without whitespace around the list, gives back
    exactly these identifiers, in order, duplicates included. *)
Theorem msigdb_members_round_trip (attrib : gmap (list N) str)
    (ids : list str) :
  Forall (λ i, i ≠ [] ∧ (comma ∉ i)) ids →
  trimmed (join (lit ",") ids) →
  attrib !! lit "MEMBERS_EZID" = Some (join (lit ",") ids) →
  msigdb_members attrib = Return ids.
Proof.
  intros Hids Htrim Hf. unfold msigdb_members.
  rewrite (getitem_Some _ _ _ Hf). cbn [mbind outcome_bind].
  rewrite (strip_fixed _ Htrim). change (lit ",") with [comma].
  cbn [split mbind outcome_bind mret outcome_ret]. f_equal.
  destruct ids as [|i ids]; [reflexivity|].
  rewrite split_from_join; [|done|].
  - apply filter_all. eapply Forall_impl; [exact Hids|]. by intros ? [? _].
  - eapply Forall_impl; [exact Hids|]. by intros ? [_ ?].
Qed.

(** ** pyobo/sources/silva.py: the main taxonomy file *)

Lemma taxonomy_parts_eq (tax_str : str) :
  taxonomy_parts tax_str
  = Return (strip <$> filter (λ p, strip p ≠ [])
                        (split_from [semicolon] 0 [] tax_str)).
Proof. reflexivity. Qed.

(** X16: every component that line 106 keeps is not empty, has no
    semicolon and no whitespace around it, and the split never fails. *)
Theorem taxonomy_parts_clean (tax_str : str) :
  ∃ parts,
    taxonomy_parts tax_str = Return parts ∧ Forall clean_component parts.
Proof.
  eexists. split; [apply taxonomy_parts_eq|].
  apply Forall_fmap, Forall_forall. intros p [Hne Hp]%list_elem_of_filter.
  split_and!; [assumption| |apply strip_trimmed].
  intros Hsemi%strip_elem.
  pose proof (split_from_single_no_sep semicolon [] tax_str
                (not_elem_of_nil _)) as Hall.
  rewrite Forall_forall in Hall. by apply (Hall p).
Qed.

Lemma clean_component_strip (p : str) : clean_component p → strip p = p.
Proof. intros (_ & _ & Htrim). by apply strip_fixed. Qed.

Lemma filter_clean_components (parts : list str) :
  Forall clean_component parts →
  strip <$> filter (λ p, strip p ≠ []) (parts ++ [[]]) = parts.
Proof.
  intros Hparts. rewrite filter_app.
  rewrite (filter_cons_False _ []) by (intros H; by apply H).
  rewrite filter_nil, app_nil_r, filter_all.
  - rewrite <- (list_fmap_id parts) at 2. apply Forall_fmap_ext_1.
    eapply Forall_impl; [exact Hparts|]. apply clean_component_strip.
  - eapply Forall_impl; [exact Hparts|]. intros p Hp.
    rewrite (clean_component_strip p Hp). by destruct Hp.
Qed.

Lemma taxonomy_parts_of_key (components : list str) :
  components ≠ [] → Forall (λ p, semicolon ∉ p) components →
  taxonomy_parts (full_key components)
  = Return (strip <$> filter (λ p, strip p ≠ []) (components ++ [[]])).
Proof.
  intros Hne Hall. rewrite taxonomy_parts_eq. unfold full_key.
  change (lit ";") with [semicolon].
  by rewrite split_from_join_sep.
Qed.

(** X17: the keys of [tax_path_to_id] round-trip. Splitting the key made
    from clean components gives back these components, and the parent key
    computed for a path is the full key of the path without its last
    component. *)
Theorem taxonomy_keys_round_trip (parts : list str) :
  Forall clean_component parts →
  taxonomy_parts (full_key parts) = Return parts
  ∧ ∀ p, parent_key (parts ++ [p]) = full_key parts.
Proof.
  intros Hparts. split.
  - destruct parts as [|q parts]; [reflexivity|].
    rewrite taxonomy_parts_of_key.
    + f_equal. by apply filter_clean_components.
    + done.
    + eapply Forall_impl; [exact Hparts|]. by intros p (_ & Hp & _).
  - intros p. unfold parent_key, full_key. by rewrite slice_init.
Qed.

Lemma elem_of_join_inv (sep : str) (ps : list str) (x : character) :
  x ∈ join sep ps → x ∈ sep ∨ ∃ p, p ∈ ps ∧ x ∈ p.
Proof.
  induction ps as [|q ps IH]; [by intros ?%elem_of_nil|].
  destruct ps as [|r ps].
  - intros Hx. right. exists q. split; [by left | exact Hx].
  - rewrite join_cons by done. rewrite !elem_of_app.
    intros [Hx|[Hx|Hx]].
    + right. exists q. split; [by left | exact Hx].
    + by left.
    + destruct (IH Hx) as [?|(p & Hp & Hxp)]; [by left|].
      right. exists p. split; [by right | exact Hxp].
Qed.

Lemma filter_none {A} (P : A → Prop) `{∀ x, Decision (P x)} (l : list A) :
  filter P l = [] ↔ Forall (λ x, ¬ P x) l.
Proof.
  induction l as [|x l IH]; [by split; [constructor|]|].
  destruct (decide (P x)) as [Hx|Hx].
  - rewrite filter_cons_True by assumption. split; [discriminate|].
    by inversion 1.
  - rewrite filter_cons_False by assumption. rewrite IH.
    split; [by constructor | by inversion 1].
Qed.

Lemma taxonomy_parts_blank (tax_str : str) :
  Forall (λ c, isspace c = true ∨ c = semicolon) tax_str →
  taxonomy_parts tax_str = Return [].
Proof.
  intros Hall. rewrite taxonomy_parts_eq. f_equal.
  rewrite (proj2 (filter_none (λ p, strip p ≠ []) _)); [reflexivity|].
  apply Forall_forall. intros p Hp Hne. apply Hne, strip_blank.
  apply Forall_forall. intros c Hc.
  rewrite Forall_forall in Hall.
  destruct (Hall c) as [Hsp| ->]; [|assumption|].
  - by eapply split_from_single_elem.
  - pose proof (split_from_single_no_sep semicolon [] tax_str
                  (not_elem_of_nil _)) as Hno.
    rewrite Forall_forall in Hno. by destruct (Hno p Hp).
Qed.

(** X18: line 106 keeps no component, so that the row is skipped, exactly
    when the taxonomy string has only whitespace and semicolons. *)
Theorem taxonomy_parts_empty_iff (tax_str : str) :
  taxonomy_parts tax_str = Return []
  ↔ Forall (λ c, isspace c = true ∨ c = semicolon) tax_str.
Proof.
  split; [|apply taxonomy_parts_blank].
  rewrite taxonomy_parts_eq.
  intros [= H]. apply fmap_nil_inv in H.
  apply (filter_none (λ p, strip p ≠ [])) in H.
  rewrite Forall_forall in H.
  apply Forall_forall. intros c Hc.
  rewrite <- (app_nil_l tax_str),
    <- (join_split_from_single semicolon [] tax_str) in Hc.
  apply elem_of_join_inv in Hc as [Hc|(p & Hp & Hc)].
  - right. by apply list_elem_of_singleton in Hc.
  - left. specialize (H p Hp).
    assert (Hblank : strip p = []) by (by destruct (decide (strip p = []))).
    apply strip_blank in Hblank. rewrite Forall_forall in Hblank.
    by apply Hblank.
Qed.

Lemma lookup_item_setitem {V} (d : list (list N * V)) (k k' : str) (v : V) :
  lookup_item (setitem d k v) k'
  = if decide (k = k') then Some v else lookup_item d k'.
Proof.
  induction d as [|[k0 v0] d IH]; simpl.
  - destruct (decide (k = k')); reflexivity.
  - destruct (decide (k0 = k)) as [->|Hk0]; simpl.
    + destruct (decide (k = k')); reflexivity.
    + rewrite IH. destruct (decide (k0 = k')) as [->|?];
        [by rewrite decide_False by congruence | reflexivity].
Qed.

Lemma setitem_keys {V} (d : list (list N * V)) (k : str) (v : V) :
  (setitem d k v).*1 = if decide (k ∈ d.*1) then d.*1 else d.*1 ++ [k].
Proof.
  induction d as [|[k0 v0] d IH]; [reflexivity|]. cbn [setitem].
  destruct (decide (k0 = k)) as [->|Hk0]; rewrite !fmap_cons; cbn [fst].
  - by rewrite decide_True by (by left).
  - rewrite IH. destruct (decide (k ∈ d.*1)) as [Hin|Hnin].
    + by rewrite decide_True by (by right).
    + rewrite decide_False; [reflexivity|].
      intros [?|?]%elem_of_cons; congruence.
Qed.

Lemma setitem_NoDup {V} (d : list (list N * V)) (k : str) (v : V) :
  NoDup d.*1 → NoDup (setitem d k v).*1.
Proof.
  intros Hd. rewrite setitem_keys. destruct (decide (k ∈ d.*1)); [assumption|].
  apply NoDup_app. split_and!; [assumption| |apply NoDup_singleton].
  intros x Hx ->%list_elem_of_singleton. contradiction.
Qed.

Lemma lookup_item_elem {V} (d : list (list N * V)) (k : str) (v : V) :
  NoDup d.*1 → (k, v) ∈ d ↔ lookup_item d k = Some v.
Proof.
  induction d as [|[k0 v0] d IH]; simpl.
  - intros _. split; [by intros ?%elem_of_nil | discriminate].
  - intros [Hk0 Hd]%NoDup_cons. rewrite elem_of_cons.
    destruct (decide (k0 = k)) as [->|Hne].
    + split.
      * intros [[= ->]|Hin]; [reflexivity|].
        destruct Hk0. apply list_elem_of_fmap. by exists (k, v).
      * intros [= ->]. by left.
    + rewrite <- IH by assumption. split.
      * intros [[= -> ->]|Hin]; [contradiction | assumption].
      * intros Hin. by right.
Qed.

Lemma lift_Return {A} (r : result A) (a : A) : lift r = Return a ↔ r = Ok a.
Proof. destruct r; simpl; split; congruence. Qed.

Lemma Reference_new_inv (p i : str) (n : option str) (r : Reference.t) :
  Reference.new p i n = Ok r → r = Reference.mk p i n ∧ p ≠ [] ∧ i ≠ [].
Proof.
  unfold Reference.new.
  destruct (decide (p = [])); [discriminate|].
  destruct (decide (i = [])); [discriminate|].
  by intros [= <-].
Qed.


Section silva_loop.

Variable lower : str → str.
Variable has_taxonomy_rank : TypeDef.t.

(** What a pass of the loop does to the two dicts when it succeeds. *)
Lemma taxonomy_step_inv (st st' : gmap (list N) str * list (list N * Term.t))
    (row : taxonomy_row) :
  taxonomy_step lower has_taxonomy_rank st row = Return st' →
  st' = st
  ∨ ∃ parts term,
      taxonomy_parts (strip (row_taxonomy row)) = Return parts
      ∧ parts ≠ []
      ∧ strip (row_taxon_id row) ≠ []
      ∧ st' = (<[full_key parts := strip (row_taxon_id row)]> st.1,
               setitem st.2 (strip (row_taxon_id row)) term)
      ∧ Term.reference term
        = Reference.mk silva_PREFIX (strip (row_taxon_id row))
            (Some (List.last parts []))
      ∧ (Term.parents term = []
         ∨ ∃ parent_id,
             parent_id ≠ []
             ∧ (1 < length parts)%nat
             ∧ st.1 !! parent_key parts = Some parent_id
             ∧ Term.parents term = [Reference.mk silva_PREFIX parent_id None]).
Proof.
  unfold taxonomy_step. rewrite taxonomy_parts_eq.
  cbn [mbind outcome_bind].
  set (parts := strip <$> filter _ _).
  destruct (decide (parts = [])) as [|Hparts]; [intros [= <-]; by left|].
  intros H. right.
  apply outcome_bind_Return in H as (reference & Href & H).
  apply lift_Return, Reference_new_inv in Href as (-> & _ & Hid).
  apply outcome_bind_Return in H as (term1 & Hterm1 & H).
  apply outcome_bind_Return in H as (term2 & Hterm2 & H).
  injection H as <-.
  assert (H1 : Term.reference term1
               = Reference.mk silva_PREFIX (strip (row_taxon_id row))
                   (Some (List.last parts []))
               ∧ Term.parents term1 = []).
  { destruct (SILVA_RANK_TO_TAXRANK !! _) as [taxrank|].
    - apply lift_Return in Hterm1. revert Hterm1.
      unfold Term.annotate_object.
      destruct (TypeDef.is_metadata_tag has_taxonomy_rank); [discriminate|].
      simpl. by intros [= <-].
    - by injection Hterm1 as <-. }
  destruct H1 as [Href1 Hpar1].
  exists parts, term2. split_and!; [reflexivity|assumption..| | |]; [reflexivity| |].
  - destruct (1 <? length parts)%nat; [|by injection Hterm2 as <-].
    destruct (st.1 !! parent_key parts) as [parent_id|];
      [|by injection Hterm2 as <-].
    destruct (decide (parent_id = [])); [by injection Hterm2 as <-|].
    apply outcome_bind_Return in Hterm2 as (parent & Hparent & Hterm2).
    apply lift_Return, Reference_new_inv in Hparent as (-> & _ & _).
    injection Hterm2 as <-. unfold Term.append_parent.
    rewrite Hpar1. assumption.
  - destruct (1 <? length parts)%nat eqn:Hlen;
      [|left; by injection Hterm2 as <-].
    destruct (st.1 !! parent_key parts) as [parent_id|] eqn:Hlook;
      [|left; by injection Hterm2 as <-].
    destruct (decide (parent_id = [])); [left; by injection Hterm2 as <-|].
    apply outcome_bind_Return in Hterm2 as (parent & Hparent & Hterm2).
    apply lift_Return, Reference_new_inv in Hparent as (-> & _ & _).
    injection Hterm2 as <-. right. exists parent_id.
    split_and!; [assumption| by apply Nat.ltb_lt |reflexivity|].
    unfold Term.append_parent. by rewrite Hpar1.
Qed.


Lemma is_Some_lookup_item_setitem {V} (d : list (list N * V)) (k k' : str)
    (v : V) :
  is_Some (lookup_item d k') → is_Some (lookup_item (setitem d k v) k').
Proof.
  intros H. rewrite lookup_item_setitem.
  destruct (decide (k = k')); [by eexists | assumption].
Qed.



Lemma taxonomy_step_invariant
    (st st' : gmap (list N) str * list (list N * Term.t)) (row : taxonomy_row) :
  taxonomy_invariant st →
  taxonomy_step lower has_taxonomy_rank st row = Return st' →
  taxonomy_invariant st'.
Proof.
  intros (Hnd & Hpaths & Hterms) Hstep.
  apply taxonomy_step_inv in Hstep
    as [->|(parts & term & _ & _ & Hid & -> & Href & Hpar)]; [done|].
  set (tid := strip (row_taxon_id row)) in *.
  split_and!; cbn [fst snd].
  - by apply setitem_NoDup.
  - intros path taxon_id Hlook. rewrite lookup_item_setitem.
    destruct (decide (tid = taxon_id)); [by eexists|].
    apply lookup_insert_Some in Hlook as [[_ ?]|[_ Hlook]]; [congruence|].
    by eapply Hpaths.
  - intros taxon_id term' Hlook. rewrite lookup_item_setitem in Hlook.
    destruct (decide (tid = taxon_id)) as [<-|Hne].
    + injection Hlook as <-. rewrite Href. split_and!; [assumption|done..|].
      destruct Hpar as [Hpar|(parent_id & _ & _ & Hlook & Hpar)]; [by left|].
      right. exists parent_id. split; [assumption|].
      apply is_Some_lookup_item_setitem. by eapply Hpaths.
    + destruct (Hterms _ _ Hlook) as (H1 & H2 & H3 & H4).
      split_and!; [assumption..|].
      destruct H4 as [H4|(parent_id & H4 & H5)]; [by left|].
      right. exists parent_id. split; [assumption|].
      by apply is_Some_lookup_item_setitem.
Qed.

Lemma taxonomy_loop_invariant_from
    (st st' : gmap (list N) str * list (list N * Term.t))
    (rows : list taxonomy_row) :
  taxonomy_invariant st →
  taxonomy_loop lower has_taxonomy_rank st rows = Return st' →
  taxonomy_invariant st'.
Proof.
  revert st. induction rows as [|row rows IH]; intros st Hinv.
  - by intros [= <-].
  - cbn [taxonomy_loop].
    intros (st1 & Hstep & Hloop)%outcome_bind_Return.
    eapply IH; [|exact Hloop]. by eapply taxonomy_step_invariant.
Qed.

(** X19: whatever the rows, when the first loop of [iter_terms_silva]
    ends without an exception the terms that it leaves have distinct,
    non-empty identifiers in the SILVA namespace, each is filed under its
    own identifier, each has at most one parent, and every parent is the
    identifier of a term that the loop leaves too. *)
Theorem taxonomy_loop_terms (rows : list taxonomy_row)
    (tax_path_to_id : gmap (list N) str) (terms_by_id : list (list N * Term.t)) :
  taxonomy_loop lower has_taxonomy_rank (∅, []) rows
  = Return (tax_path_to_id, terms_by_id) →
  NoDup terms_by_id.*1
  ∧ ∀ taxon_id term,
      (taxon_id, term) ∈ terms_by_id →
      taxon_id ≠ []
      ∧ Reference.prefix (Term.reference term) = silva_PREFIX
      ∧ Reference.identifier (Term.reference term) = taxon_id
      ∧ (length (Term.parents term) ≤ 1)%nat
      ∧ ∀ parent,
          parent ∈ Term.parents term →
          Reference.prefix parent = silva_PREFIX
          ∧ ∃ parent_term,
              (Reference.identifier parent, parent_term) ∈ terms_by_id.
Proof.
  intros Hloop.
  assert (Hinit : taxonomy_invariant (∅, [])).
  { split_and!; [constructor| |]; cbn [fst snd].
    - intros path taxon_id H. by rewrite lookup_empty in H.
    - intros taxon_id term H. discriminate. }
  destruct (taxonomy_loop_invariant_from _ _ _ Hinit Hloop)
    as (Hnd & _ & Hterms).
  cbn [fst snd] in *. split; [assumption|].
  intros taxon_id term Hin%lookup_item_elem; [|assumption].
  destruct (Hterms _ _ Hin) as (H1 & H2 & H3 & H4).
  split_and!; [assumption..| |].
  - destruct H4 as [->|(parent_id & -> & _)]; simpl; lia.
  - intros parent Hparent.
    destruct H4 as [H4|(parent_id & H4 & [parent_term H5])].
    + rewrite H4 in Hparent. by apply elem_of_nil in Hparent.
    + rewrite H4 in Hparent. apply list_elem_of_singleton in Hparent as ->.
      split; [reflexivity|]. exists parent_term.
      by apply lookup_item_elem.
Qed.

End silva_loop.

Section silva_loop_order.

Variable lower : str → str.
Variable has_taxonomy_rank : TypeDef.t.
Hypothesis has_taxonomy_rank_relation :
  TypeDef.is_metadata_tag has_taxonomy_rank = false.



(** X21: a row whose taxonomy has only whitespace and semicolons is
    skipped: the two dicts stay as they are and nothing is raised, whatever
    the taxon identifier and the rank of the row. *)
Theorem taxonomy_blank_row_skipped
    (st : gmap (list N) str * list (list N * Term.t)) (row : taxonomy_row) :
  Forall (λ c, isspace c = true ∨ c = semicolon) (row_taxonomy row) →
  taxonomy_step lower has_taxonomy_rank st row = Return st.
Proof.
  intros Hblank. unfold taxonomy_step.
  rewrite taxonomy_parts_blank; [reflexivity|].
  apply Forall_forall. intros c Hc%strip_elem.
  rewrite Forall_forall in Hblank. by apply Hblank.
Qed.

End silva_loop_order.

(** ** pyobo/sources/hgncgenefamily.py *)

Lemma get_hierarchy_from (d : gmap (list N) (list str)) (rows : list (str * str))
    (child : str) :
  foldl (λ d row, <[row.2 := default [] (d !! row.2) ++ [row.1]]> d) d rows
    !! child
  = let parents := (filter (λ row, row.2 = child) rows).*1 in
    match d !! child with
    | Some old => Some (old ++ parents)
    | None => if decide (parents = []) then None else Some parents
    end.
Proof.
  revert d. induction rows as [|[p c] rows IH]; intros d.
  - cbn [foldl]. rewrite filter_nil. cbn [fmap list_fmap].
    destruct (d !! child) as [old|]; [by rewrite app_nil_r | reflexivity].
  - cbn [foldl fst snd]. rewrite IH. cbn zeta.
    destruct (decide (c = child)) as [->|Hc].
    + rewrite lookup_insert_eq, filter_cons_True by reflexivity.
      rewrite fmap_cons. cbn [fst].
      destruct (d !! child) as [old|]; cbn [default].
      * by rewrite <- app_assoc.
      * by rewrite decide_False by done.
    + rewrite lookup_insert_ne, filter_cons_False by (cbn; congruence).
      reflexivity.
Qed.

(** X22: [get_hierarchy] maps a child to the parents of all its rows, in
    the order of the rows and with repetitions, and has no entry for an
    identifier that is the child of no row; so every row is found again
    under its child. *)
Theorem get_hierarchy_lookup (rows : list (str * str)) (child : str) :
  (get_hierarchy rows !! child
   = let parents := (filter (λ row, row.2 = child) rows).*1 in
     if decide (parents = []) then None else Some parents)
  ∧ (get_hierarchy rows !! child = None ↔ child ∉ rows.*2)
  ∧ (∀ parent, (parent, child) ∈ rows →
       ∃ parents, get_hierarchy rows !! child = Some parents
                  ∧ parent ∈ parents).
Proof.
  assert (Hlook := get_hierarchy_from ∅ rows child).
  rewrite lookup_empty in Hlook. fold (get_hierarchy rows) in Hlook.
  cbn zeta in *.
  assert (Hin : ∀ parent, (parent, child) ∈ rows →
                  parent ∈ (filter (λ row, row.2 = child) rows).*1).
  { intros parent Hrow. apply list_elem_of_fmap. exists (parent, child).
    split; [reflexivity|]. by apply list_elem_of_filter. }
  split_and!.
  - exact Hlook.
  - rewrite Hlook. split.
    + destruct (decide (_ = [])) as [Hnil|]; [|discriminate]. intros _.
      intros ([parent c] & Hc & Hrow)%list_elem_of_fmap. cbn in Hc. subst c.
      specialize (Hin parent Hrow). rewrite Hnil in Hin.
      by apply elem_of_nil in Hin.
    + intros Hnot. rewrite decide_True; [reflexivity|].
      destruct (filter _ rows) as [|[parent c] l] eqn:Hf; [reflexivity|].
      assert (Hrow : (parent, c) ∈ filter (λ row, row.2 = child) rows)
        by (rewrite Hf; by left).
      apply list_elem_of_filter in Hrow as [Hc Hrow]. cbn in Hc. subst c.
      destruct Hnot. apply list_elem_of_fmap. by exists (parent, child).
  - intros parent Hrow. specialize (Hin parent Hrow).
    rewrite Hlook. destruct (decide (_ = [])) as [Hnil|].
    + rewrite Hnil in Hin. by apply elem_of_nil in Hin.
    + by eexists.
Qed.

(** ** pyobo/sources/bigg/bigg_compartment.py *)

Lemma get_compartments_rows_succeeds (rv : list (list N * str))
    (rows : list (list str)) :
  (∃ rv', get_compartments_rows rv rows = Return rv')
  ↔ Forall (λ cells, length cells = 0%nat ∨ length cells = 2%nat) rows.
Proof.
  revert rv. induction rows as [|cells rows IH]; intros rv.
  - split; [constructor | by eexists].
  - cbn [get_compartments_rows]. rewrite Forall_cons.
    destruct cells as [|c1 [|c2 [|c3 cells]]].
    + rewrite IH. split; [by split; [left|] | by intros [_ ?]].
    + split; [by intros [? [=]] | intros [[[=]|[=]] _]].
    + rewrite IH. split; [by split; [right|] | by intros [_ ?]].
    + split; [by intros [? [=]] | intros [[[=]|[=]] _]].
Qed.

(** X23: [get_compartments] succeeds exactly when every row of the table
    has no td cell or exactly two; a row with one cell, or with three or
    more, makes it raise ValueError, and it raises nothing else. *)
Theorem get_compartments_succeeds_iff (rows : list (list str)) :
  ((∃ rv, get_compartments rows = Return rv)
   ↔ Forall (λ cells, length cells = 0%nat ∨ length cells = 2%nat) rows)
  ∧ (∀ e, get_compartments rows = Throw e → e = ValueError).
Proof.
  split; [apply get_compartments_rows_succeeds|].
  unfold get_compartments. generalize (@nil (list N * str)).
  induction rows as [|cells rows IH]; intros rv e; [discriminate|].
  cbn [get_compartments_rows].
  destruct cells as [|c1 [|c2 [|c3 cells]]];
    [apply IH | by intros [= <-] | apply IH | by intros [= <-]].
Qed.

Lemma get_compartments_rows_lookup (rv rv' : list (list N * str))
    (rows : list (list str)) (identifier : str) :
  get_compartments_rows rv rows = Return rv' →
  lookup_item rv' identifier
  = match last (filter (λ cells, head cells = Some identifier) rows) with
    | Some cells => cells !! 1%nat
    | None => lookup_item rv identifier
    end.
Proof.
  revert rv. induction rows as [|cells rows IH]; intros rv.
  - by intros [= <-].
  - cbn [get_compartments_rows].
    destruct cells as [|c1 [|c2 [|c3 cells]]]; [|discriminate| |discriminate].
    + intros H. rewrite (IH _ H). by rewrite filter_cons_False by done.
    + intros H. rewrite (IH _ H), lookup_item_setitem.
      destruct (decide (c1 = identifier)) as [->|Hne].
      * rewrite filter_cons_True by done. rewrite last_cons.
        by destruct (last _).
      * by rewrite filter_cons_False by (cbn; congruence).
Qed.

Lemma get_compartments_rows_NoDup (rv rv' : list (list N * str))
    (rows : list (list str)) :
  NoDup rv.*1 → get_compartments_rows rv rows = Return rv' → NoDup rv'.*1.
Proof.
  revert rv. induction rows as [|cells rows IH]; intros rv Hrv.
  - by intros [= <-].
  - cbn [get_compartments_rows].
    destruct cells as [|c1 [|c2 [|c3 cells]]]; [|discriminate| |discriminate].
    + by apply IH.
    + apply IH. by apply setitem_NoDup.
Qed.

(** X24: in the dict that [get_compartments] returns every identifier
    occurs once, with the name of the last row of the table that has this
    identifier; an identifier of no row is not a key. *)
Theorem get_compartments_last_row_wins (rows : list (list str))
    (rv : list (list N * str)) :
  get_compartments rows = Return rv →
  NoDup rv.*1
  ∧ ∀ identifier,
      lookup_item rv identifier
      = cells ← last (filter (λ cells, head cells = Some identifier) rows);
        cells !! 1%nat.
Proof.
  intros H. split.
  - eapply get_compartments_rows_NoDup; [|exact H]. constructor.
  - intros identifier.
    rewrite (get_compartments_rows_lookup _ _ _ identifier H).
    by destruct (last _).
Qed.

(** ** The properties on the sample records *)

Lemma trimmed_ends (s : str) :
  match s with [] => true | c :: _ => negb (isspace c) end
  && match last s with None => true | Some c => negb (isspace c) end = true →
  trimmed s.
Proof.
  intros [Hhead Hlast]%andb_prop. split.
  - intros c s' ->. by apply negb_true_iff.
  - intros c s' ->. rewrite last_snoc in Hlast. by apply negb_true_iff.
Qed.

Lemma clean_component_ends (p : str) :
  p ≠ [] → semicolon ∉ p →
  match p with [] => true | c :: _ => negb (isspace c) end
  && match last p with None => true | Some c => negb (isspace c) end = true →
  clean_component p.
Proof. intros ? ? ?. split_and!; [assumption..|]. by apply trimmed_ends. Qed.

Ltac clean_component_literal :=
  apply clean_component_ends;
  [ discriminate
  | apply (bool_decide_unpack _); vm_compute; reflexivity
  | vm_compute; reflexivity ].

Lemma get_definition_text_witness :
  _get_definition Data.go_gene_set
  = Return (Some (lit "Genes annotated  to the cytosol"))
  ∧ ∃ text,
      (Data.go_gene_set !! lit "DESCRIPTION_FULL" = Some text
       ∨ Data.go_gene_set !! lit "DESCRIPTION_BRIEF" = Some text)
      ∧ (len (lit "Genes annotated  to the cytosol") ≤ len (strip text))%nat
      ∧ (∀ c, c ∈ lit "Genes annotated  to the cytosol" → c ∈ text)
      ∧ (backslash ∉ text →
         lit "Genes annotated  to the cytosol" = strip text
         ∧ lit "Genes annotated  to the cytosol" ≠ []).
Proof.
  assert (H : _get_definition Data.go_gene_set
              = Return (Some (lit "Genes annotated  to the cytosol")))
    by (vm_compute; reflexivity).
  split; [exact H|]. exact (get_definition_text _ _ H).
Defined.




Lemma msigdb_provenance_reference_witness :
  msigdb_provenance Data.kegg_gene_set
  = Return (Some (lit "pubmed", lit "12345678"))
  ∧ lit "12345678" = strip (lit " 12345678 ")
  ∧ trimmed (lit "12345678").
Proof.
  assert (H : msigdb_provenance Data.kegg_gene_set
              = Return (Some (lit "pubmed", lit "12345678")))
    by (vm_compute; reflexivity).
  split; [exact H|].
  destruct (msigdb_provenance_reference Data.kegg_gene_set (lit " 12345678 ")
              eq_refl) as [_ Hsome].
  destruct (Hsome _ _ H) as (H1 & _ & H2 & _). by split.
Defined.

Lemma msigdb_members_identifiers_witness :
  ∃ ids,
    msigdb_members Data.go_gene_set = Return ids
    ∧ Forall (λ i, i ≠ [] ∧ (comma ∉ i)
                   ∧ ∀ c, c ∈ i → c ∈ lit " 7157,,672, ") ids.
Proof.
  apply (msigdb_members_identifiers Data.go_gene_set (lit " 7157,,672, ")).
  reflexivity.
Defined.

Lemma msigdb_members_round_trip_witness :
  Data.kegg_gene_set !! lit "MEMBERS_EZID" = Some (lit "2597,5230,226")
  ∧ msigdb_members Data.kegg_gene_set
    = Return [lit "2597"; lit "5230"; lit "226"].
Proof.
  split; [reflexivity|].
  apply (msigdb_members_round_trip Data.kegg_gene_set
           [lit "2597"; lit "5230"; lit "226"]).
  - apply (bool_decide_unpack _). vm_compute. reflexivity.
  - apply trimmed_ends. vm_compute. reflexivity.
  - reflexivity.
Defined.

Lemma taxonomy_keys_round_trip_witness :
  taxonomy_parts (lit "Bacteria;Actinomycetota;")
  = Return [lit "Bacteria"; lit "Actinomycetota"]
  ∧ parent_key [lit "Bacteria"; lit "Actinomycetota"; lit "Actinomycetes"]
    = lit "Bacteria;Actinomycetota;".
Proof.
  assert (H : Forall clean_component [lit "Bacteria"; lit "Actinomycetota"]).
  { constructor; [|constructor; [|constructor]]; clean_component_literal. }
  destruct (taxonomy_keys_round_trip _ H) as [Hparts Hkey].
  split; [exact Hparts | exact (Hkey (lit "Actinomycetes"))].
Defined.

Lemma taxonomy_loop_terms_witness :
  match taxonomy_loop Data.lower Data.has_taxonomy_rank (∅, [])
          [Data.bacteria; Data.blank_row; Data.actinomycetota] with
  | Return (_, terms_by_id) =>
      terms_by_id.*1 = [lit "3"; lit "46"]
      ∧ NoDup terms_by_id.*1
      ∧ ∀ taxon_id term,
          (taxon_id, term) ∈ terms_by_id →
          taxon_id ≠ []
          ∧ Reference.prefix (Term.reference term) = silva_PREFIX
          ∧ Reference.identifier (Term.reference term) = taxon_id
          ∧ (length (Term.parents term) ≤ 1)%nat
          ∧ ∀ parent,
              parent ∈ Term.parents term →
              Reference.prefix parent = silva_PREFIX
              ∧ ∃ parent_term,
                  (Reference.identifier parent, parent_term) ∈ terms_by_id
  | Throw _ => False
  end.
Proof.
  assert (Hkeys :
    match taxonomy_loop Data.lower Data.has_taxonomy_rank (∅, [])
            [Data.bacteria; Data.blank_row; Data.actinomycetota] with
    | Return (_, terms_by_id) => terms_by_id.*1 = [lit "3"; lit "46"]
    | Throw _ => False
    end) by (vm_compute; reflexivity).
  destruct (taxonomy_loop Data.lower Data.has_taxonomy_rank (∅, [])
              [Data.bacteria; Data.blank_row; Data.actinomycetota])
    as [[tax_path_to_id terms_by_id]|e] eqn:H; [|exact Hkeys].
  split; [exact Hkeys|]. exact (taxonomy_loop_terms _ _ _ _ _ H).
Defined.


Lemma taxonomy_blank_row_skipped_witness :
  taxonomy_step Data.lower Data.has_taxonomy_rank (∅, []) Data.blank_row
  = Return (∅, []).
Proof.
  apply taxonomy_blank_row_skipped.
  apply (bool_decide_unpack _). vm_compute. reflexivity.
Defined.

Lemma get_compartments_last_row_wins_witness :
  get_compartments Data.compartment_rows
  = Return [(lit "c", lit "cytoplasm"); (lit "e", lit "extracellular space")]
  ∧ NoDup [lit "c"; lit "e"]
  ∧ lookup_item
      [(lit "c", lit "cytoplasm"); (lit "e", lit "extracellular space")]
      (lit "c")
    = Some (lit "cytoplasm").
Proof.
  assert (H : get_compartments Data.compartment_rows
              = Return [(lit "c", lit "cytoplasm");
                        (lit "e", lit "extracellular space")])
    by (vm_compute; reflexivity).
  split; [exact H|].
  destruct (get_compartments_last_row_wins _ _ H) as [Hnd Hlook].
  split; [exact Hnd|]. rewrite (Hlook (lit "c")). reflexivity.
Defined.
